(** * Periodic advection with RK3: forward, tangent-linear and adjoint solvers

    A shallow embedding of [solvers-jax/advection-rk3-jax.py].

    Numbers: the program computes in IEEE binary64; here every float is a
    real number ([R]), so the algebraic identities of the solvers are exact.
    The one quotient whose denominator can be zero is a [float_value], with
    the infinities and the NaN that division gives instead of raising.
    Arrays: a one-dimensional [jnp]/[np] array is a [list R].
    Errors: an exception raised by an array operation or by an integrator is
    a value [Raise e] of the [result] type, threaded with [bind]. *)

From Stdlib Require Import Reals List ZArith Lia Lra Bool PeanoNat.
Import ListNotations.

Open Scope R_scope.

(** ** Arrays and exceptions *)

Definition vec := list R.

Inductive error : Type :=
| ShapeError (expected actual : nat)   (* incompatible array shapes *)
| ValueError.                          (* reduction of an empty sequence *)

Inductive result (A : Type) : Type :=
| Ok (a : A)
| Raise (e : error).

Arguments Ok {A} a.
Arguments Raise {A} e.

Definition bind {A B : Type} (m : result A) (k : A -> result B) : result B :=
  match m with
  | Ok a => k a
  | Raise e => Raise e
  end.

Notation "x <- m ;; k" := (bind m (fun x => k))
  (at level 61, m at next level, right associativity).
Notation "' ( x , y ) <- m ;; k" := (bind m (fun p => let '(x, y) := p in k))
  (at level 61, x name, y name, m at next level, right associativity).

Fixpoint map2 (op : R -> R -> R) (a b : vec) : vec :=
  match a, b with
  | x :: a', y :: b' => op x y :: map2 op a' b'
  | _, _ => []
  end.

(** Elementwise binary operation on two one-dimensional arrays, with the
    broadcasting rule of numpy and jax.numpy: equal lengths combine
    pointwise, a length-one array is stretched, anything else raises. *)
Definition broadcast2 (op : R -> R -> R) (a b : vec) : result vec :=
  if (length a =? length b)%nat then Ok (map2 op a b)
  else match a, b with
       | [x], _ => Ok (map (op x) b)
       | _, [y] => Ok (map (fun x => op x y) a)
       | _, _ => Raise (ShapeError (length a) (length b))
       end.

Definition vadd : vec -> vec -> result vec := broadcast2 Rplus.
Definition vsub : vec -> vec -> result vec := broadcast2 Rminus.

(** [c * a] and [a / c] for a scalar [c] and an array [a]. *)
Definition smul (c : R) (a : vec) : vec := map (Rmult c) a.
Definition sdiv (a : vec) (c : R) : vec := map (fun x => x / c) a.

(** [jnp.roll(u, shift)] on a one-dimensional array: the element at index
    [i] moves to index [(i + shift) mod n].  The shift is reduced modulo
    the length (modulo 1 for the empty array). *)
Definition roll (u : vec) (shift : Z) : vec :=
  let n := length u in
  let s := Z.to_nat (shift mod Z.of_nat (Nat.max n 1)) in
  skipn (n - s) u ++ firstn (n - s) u.

(** [np.dot] of two one-dimensional arrays; the lengths must agree. *)
Fixpoint dot (a b : vec) : R :=
  match a, b with
  | x :: a', y :: b' => x * y + dot a' b'
  | _, _ => 0
  end.

Definition np_dot (a b : vec) : result R :=
  if (length a =? length b)%nat then Ok (dot a b)
  else Raise (ShapeError (length a) (length b)).

(** [np.linalg.norm] of a one-dimensional array: the Euclidean norm. *)
Definition norm (a : vec) : R := sqrt (dot a a).

(** The value of a binary64 quotient: a real number, an infinity or a
    NaN.  Only the quotient of two norms can leave the real numbers in this
    program, so only that quotient and what is computed from it carry this
    type. *)
Inductive float_value : Type :=
| Finite (r : R)
| PosInf
| NegInf
| NaN.

(** [a / b] for two [np.float64] numbers, [b] not a negative zero: division
    by zero does not raise; it gives NaN for [0 / 0] and an infinity with
    the sign of [a] otherwise. *)
Definition float_div (a b : R) : float_value :=
  if Req_EM_T b 0 then
    if Req_EM_T a 0 then NaN
    else if Rlt_dec 0 a then PosInf else NegInf
  else Finite (a / b).

(** The smaller of two values as [np.min] combines them: a NaN wins. *)
Definition float_min (x y : float_value) : float_value :=
  match x, y with
  | NaN, _ | _, NaN => NaN
  | NegInf, _ | _, NegInf => NegInf
  | PosInf, z | z, PosInf => z
  | Finite a, Finite b => Finite (Rmin a b)
  end.

(** [np.min] of a Python list of numbers. *)
Definition np_min (l : list float_value) : result float_value :=
  match l with
  | [] => Raise ValueError
  | x :: l' => Ok (fold_left float_min l' x)
  end.

(** [jnp.linspace(start, stop, num)]: [num] evenly spaced samples, both
    ends included.  A single sample is [start] itself. *)
Definition linspace (start stop : R) (num : nat) : vec :=
  map (fun i => start + INR i * ((stop - start) / INR (num - 1)))
    (seq 0 num).

(** The slice [u[start:stop]] of a one-dimensional array: a negative bound
    counts from the end, and both bounds are clamped to the array. *)
Definition slice (u : vec) (start stop : Z) : vec :=
  let n := Z.of_nat (length u) in
  let clamp k := Z.max 0 (Z.min n (if (k <? 0)%Z then k + n else k)) in
  firstn (Z.to_nat (clamp stop - clamp start))
    (skipn (Z.to_nat (clamp start)) u).

(** [np.concatenate((a, b))] of two one-dimensional arrays. *)
Definition concatenate (a b : vec) : vec := a ++ b.

(** The right-hand side of line 64, for an array [u]:
    [np.concatenate((u[len(u)-1:len(u)], u[:len(u)-1]))]. *)
Definition last_to_front (u : vec) : vec :=
  let len := Z.of_nat (length u) in
  concatenate (slice u (len - 1) len) (slice u 0 (len - 1)).

(** The comparison [x < y] as the Python boolean it evaluates to. *)
Definition Rltb (x y : R) : bool := if Rlt_dec x y then true else false.

(** The same comparison when [x] is a quotient: a NaN compares false. *)
Definition float_ltb (x : float_value) (y : R) : bool :=
  match x with
  | Finite r => Rltb r y
  | NegInf => true
  | PosInf | NaN => false
  end.

(** ** The spatial operator and the right-hand side *)

(** A jit-compiled JAX function of one array: its value, and the two
    derivative evaluations that JAX derives from the same trace. *)
Record diff_fn : Type := {
  evaluate : vec -> result vec;
  directional_derivative : vec -> vec -> result vec;
  vector_jacobian_product : vec -> vec -> result vec
}.

(** [advection_op], lines 12-15. *)
Definition advection_op (dx : R) (u : vec) : result vec :=
  let dx2 := dx * 2 in
  d <- vsub (roll u (-1)) (roll u 1) ;;
  let u_new := sdiv d dx2 in
  Ok u_new.

(** Modelled from the spec: the derivative evaluations of [advection_op]
    are supplied by JAX and are not written in the source file.  Section
    4.1: the directional derivative of the operator is the operator applied
    to the perturbation. *)
Definition advection_op_jvp (dx : R) (u du : vec) : result vec :=
  advection_op dx du.

(** Modelled from the spec: section 4.1 asks for the transpose obtained by
    composition through reverse mode, not a hand-derived one.  Read in
    reverse, [(roll(u,-1) - roll(u,1)) / dx2] sends the cotangent through
    the division, hands it to the first operand and its negation to the
    second, and undoes each roll with the opposite shift. *)
Definition advection_op_vjp (dx : R) (u Dv : vec) : result vec :=
  let dx2 := dx * 2 in
  let g := sdiv Dv dx2 in
  vadd (roll g 1) (roll (smul (-1) g) (-1)).

(** [create_advection_opeartor], lines 9-17: the closure captures [dx]
    only; the second argument is not used. *)
Definition create_advection_opeartor (dx : R) (n : nat) : diff_fn :=
  {| evaluate := advection_op dx;
     directional_derivative := advection_op_jvp dx;
     vector_jacobian_product := advection_op_vjp dx |}.

(** The nested function [f] of the three solvers (lines 23-24, 33-34 and
    43-44, the same text three times): [- v * A(u)].  Its derivative
    evaluations follow section 4.2 of the specification. *)
Definition f (v : R) (A : diff_fn) : diff_fn :=
  {| evaluate := fun u => a <- evaluate A u ;; Ok (smul (- v) a);
     directional_derivative := fun u du =>
       a <- directional_derivative A u du ;; Ok (smul (- v) a);
     vector_jacobian_product := fun u Dv =>
       a <- vector_jacobian_product A u Dv ;; Ok (smul (- v) a) |}.

(** ** The integrators of the [rk3] module *)

(** Modelled from the spec: [RK3] is imported from the module [rk3], which
    is not part of the source tree.  Section 4.3: one step is the
    three-stage recurrence
    [k1 = u + dt f(u)], [k2 = 3/4 u + 1/4 (k1 + dt f(k1))],
    [u' = 1/3 u + 2/3 (k2 + dt f(k2))]. *)
Definition RK3_step (f : diff_fn) (dt : R) (u : vec) : result vec :=
  fu <- evaluate f u ;;
  k1 <- vadd u (smul dt fu) ;;
  fk1 <- evaluate f k1 ;;
  s1 <- vadd k1 (smul dt fk1) ;;
  k2 <- vadd (smul (3/4) u) (smul (1/4) s1) ;;
  fk2 <- evaluate f k2 ;;
  s2 <- vadd k2 (smul dt fk2) ;;
  vadd (smul (1/3) u) (smul (2/3) s2).

(** Modelled from the spec: section 4.3, the step is applied [num_steps]
    times in sequence and the final state is returned.  The call shape
    [RK3(f, u_initial, dt, num_steps)] is that of line 26. *)
Fixpoint RK3 (f : diff_fn) (u : vec) (dt : R) (num_steps : nat) : result vec :=
  match num_steps with
  | O => Ok u
  | S n => u' <- RK3_step f dt u ;; RK3 f u' dt n
  end.

(** Modelled from the spec: section 4.4, one tangent-linear step; the state
    and the perturbation advance together, [df] being evaluated at the
    stage state and the propagated perturbation. *)
Definition RK3_tlm_step (f : diff_fn) (dt : R) (u du : vec)
  : result (vec * vec) :=
  fu <- evaluate f u ;;
  k1 <- vadd u (smul dt fu) ;;
  dfu <- directional_derivative f u du ;;
  dk1 <- vadd du (smul dt dfu) ;;
  fk1 <- evaluate f k1 ;;
  s1 <- vadd k1 (smul dt fk1) ;;
  k2 <- vadd (smul (3/4) u) (smul (1/4) s1) ;;
  dfk1 <- directional_derivative f k1 dk1 ;;
  ds1 <- vadd dk1 (smul dt dfk1) ;;
  dk2 <- vadd (smul (3/4) du) (smul (1/4) ds1) ;;
  fk2 <- evaluate f k2 ;;
  s2 <- vadd k2 (smul dt fk2) ;;
  u' <- vadd (smul (1/3) u) (smul (2/3) s2) ;;
  dfk2 <- directional_derivative f k2 dk2 ;;
  ds2 <- vadd dk2 (smul dt dfk2) ;;
  du' <- vadd (smul (1/3) du) (smul (2/3) ds2) ;;
  Ok (u', du').

Fixpoint RK3_tlm_loop (f : diff_fn) (dt : R) (num_steps : nat) (u du : vec)
  : result (vec * vec) :=
  match num_steps with
  | O => Ok (u, du)
  | S n => '(u', du') <- RK3_tlm_step f dt u du ;; RK3_tlm_loop f dt n u' du'
  end.

(** Modelled from the spec: [RK3_tlm] of the absent module [rk3], called at
    line 36 and returning a pair whose second component is the final
    perturbation.  Section 7: a perturbation whose length differs from the
    state's is a precondition violation reported at once. *)
Definition RK3_tlm (f : diff_fn) (u du : vec) (dt : R) (num_steps : nat)
  : result (vec * vec) :=
  if (length du =? length u)%nat then RK3_tlm_loop f dt num_steps u du
  else Raise (ShapeError (length u) (length du)).

(** Modelled from the spec: section 4.5, the reverse recurrence of one
    step.  The stage states [k1], [k2] are recomputed from [u]; the
    cotangent of [u] starts as [1/3 Dv] and collects the three
    contributions in reverse stage order. *)
Definition RK3_adm_step (f : diff_fn) (dt : R) (u Dv : vec) : result vec :=
  fu <- evaluate f u ;;
  k1 <- vadd u (smul dt fu) ;;
  fk1 <- evaluate f k1 ;;
  s1 <- vadd k1 (smul dt fk1) ;;
  k2 <- vadd (smul (3/4) u) (smul (1/4) s1) ;;
  let Dk2 := smul (2/3) Dv in
  let Dv0 := smul (1/3) Dv in
  g2 <- vector_jacobian_product f k2 Dk2 ;;
  Dk2' <- vadd Dk2 (smul dt g2) ;;
  Dv1 <- vadd Dv0 (smul (3/4) Dk2') ;;
  let Dk1 := smul (1/4) Dk2' in
  g1 <- vector_jacobian_product f k1 Dk1 ;;
  Dk1' <- vadd Dk1 (smul dt g1) ;;
  g0 <- vector_jacobian_product f u Dk1' ;;
  c0 <- vadd Dk1' (smul dt g0) ;;
  vadd Dv1 c0.

(** The steps are unwound in reverse order: the forward step is taken on
    the way in, its reverse recurrence on the way out. *)
Fixpoint RK3_adm_loop (f : diff_fn) (dt : R) (num_steps : nat) (u Dv : vec)
  : result (vec * vec) :=
  match num_steps with
  | O => Ok (u, Dv)
  | S n =>
      u' <- RK3_step f dt u ;;
      '(y, Dv') <- RK3_adm_loop f dt n u' Dv ;;
      Du <- RK3_adm_step f dt u Dv' ;;
      Ok (y, Du)
  end.

(** Modelled from the spec: [RK3_adm] of the absent module [rk3], called at
    line 46 and returning a pair whose second component is the cotangent at
    the initial state.  Section 7: a cotangent whose length differs from
    the state's is a precondition violation reported at once. *)
Definition RK3_adm (f : diff_fn) (u Du : vec) (dt : R) (num_steps : nat)
  : result (vec * vec) :=
  if (length Du =? length u)%nat then RK3_adm_loop f dt num_steps u Du
  else Raise (ShapeError (length u) (length Du)).

(** ** The three solvers, lines 19-47 *)

Definition solver_rk3 (u_initial : vec) (v dx : R) (num_points : nat)
  (dt : R) (num_steps : nat) : result vec :=
  let A := create_advection_opeartor dx num_points in
  RK3 (f v A) u_initial dt num_steps.

Definition solver_rk3_tlm (u_initial du_initial : vec) (v dx : R)
  (num_points : nat) (dt : R) (num_steps : nat) : result vec :=
  let A := create_advection_opeartor dx num_points in
  '(_y, dy) <- RK3_tlm (f v A) u_initial du_initial dt num_steps ;;
  Ok dy.

Definition solver_rk3_adm (u_initial Du : vec) (v dx : R)
  (num_points : nat) (dt : R) (num_steps : nat) : result vec :=
  let A := create_advection_opeartor dx num_points in
  '(_y, Du_initial) <- RK3_adm (f v A) u_initial Du dt num_steps ;;
  Ok Du_initial.

(** The same three solvers with the integrator they import from [rk3]
    left open: whatever that module does, this is all the solvers of
    lines 19-47 add to it. *)
Definition solver_rk3_with
  (integrator : diff_fn -> vec -> R -> nat -> result vec)
  (u_initial : vec) (v dx : R) (num_points : nat)
  (dt : R) (num_steps : nat) : result vec :=
  let A := create_advection_opeartor dx num_points in
  integrator (f v A) u_initial dt num_steps.

Definition solver_rk3_tlm_with
  (integrator : diff_fn -> vec -> vec -> R -> nat -> result (vec * vec))
  (u_initial du_initial : vec) (v dx : R)
  (num_points : nat) (dt : R) (num_steps : nat) : result vec :=
  let A := create_advection_opeartor dx num_points in
  '(_y, dy) <- integrator (f v A) u_initial du_initial dt num_steps ;;
  Ok dy.

Definition solver_rk3_adm_with
  (integrator : diff_fn -> vec -> vec -> R -> nat -> result (vec * vec))
  (u_initial Du : vec) (v dx : R)
  (num_points : nat) (dt : R) (num_steps : nat) : result vec :=
  let A := create_advection_opeartor dx num_points in
  '(_y, Du_initial) <- integrator (f v A) u_initial Du dt num_steps ;;
  Ok Du_initial.

(** ** The verification harness, lines 52-140 *)

Module Main.

Definition num_points : nat := 100.
Definition domain_length : R := 1.
Definition dx : R := domain_length / INR num_points.
Definition v : R := 12 / 10.
Definition C : R := 1 / 10.
Definition dt : R := (dx / v) * C.
(** [num_steps] is rebound to 8 (line 79) before the closures run. *)
Definition num_steps : nat := 8.

(** The grid and the initial condition, lines 62-64. *)
Definition x : vec := linspace 0 (domain_length - dx) num_points.
Definition u_initial : vec :=
  map sin (smul (2 * PI / domain_length) x).
Definition u_initial_p : vec := last_to_front u_initial.

Definition m (u : vec) : result vec :=
  solver_rk3 u v dx num_points dt num_steps.

Definition TLM (u du : vec) : result vec :=
  solver_rk3_tlm u du v dx num_points dt num_steps.

Definition ADM (u Dv : vec) : result vec :=
  solver_rk3_adm u Dv v dx num_points dt num_steps.

(** [np.random.default_rng(seed)]: a generator is its seed and the number
    of values drawn so far.  The numbers themselves come from numpy's bit
    generator, a parameter here: [bit_generator seed i] is the [i]-th
    double the generator seeded with [seed] produces. *)
Record Generator : Type := { seed : Z; drawn : nat }.

Definition default_rng (s : Z) : Generator := {| seed := s; drawn := 0 |}.

Section Harness.

Variable bit_generator : Z -> nat -> R.

(** [rng.random((n,))]: the next [n] values, and the advanced generator. *)
Definition random (rng : Generator) (n : nat) : vec * Generator :=
  (map (bit_generator (seed rng)) (seq (drawn rng) n),
   {| seed := seed rng; drawn := drawn rng + n |}).

(** [testTLMLinearity], lines 90-98. *)
Definition testTLMLinearity (TLM : vec -> vec -> result vec) (tol : R)
  : result (bool * R) :=
  let rng := default_rng 12345 in
  let N := 100%nat in
  let '(u0, rng) := random rng N in
  let '(du, rng) := random rng N in
  dv <- TLM u0 du ;;
  dv2 <- TLM u0 (smul 2 du) ;;
  d <- vsub dv2 (smul 2 dv) ;;
  let absolute_error := norm d in
  Ok (Rltb absolute_error tol, absolute_error).

(** The body of the loop of lines 113-119, run [n] more times; the lists
    and the scale are the loop's mutable variables.  The relative error is
    a quotient of two norms: a zero denominator gives an infinity or a NaN
    and does not raise. *)
Fixpoint approx_loop (m : vec -> result vec) (u0 du v0 dv : vec) (n : nat)
  (scale : R) (absolute_errors : list R)
  (relavite_errors : list float_value)
  : result (list R * list float_value) :=
  match n with
  | O => Ok (absolute_errors, relavite_errors)
  | S n' =>
      x <- vadd u0 (smul scale du) ;;
      v1 <- m x ;;
      d <- vsub v1 v0 ;;
      e <- vsub (smul scale dv) d ;;
      let absolute_error := norm e in
      let absolute_errors := absolute_errors ++ [absolute_error] in
      d' <- vsub v1 v0 ;;
      let relative_error := float_div absolute_error (norm d') in
      let relavite_errors := relavite_errors ++ [relative_error] in
      approx_loop m u0 du v0 dv n' (scale / 10)
        absolute_errors relavite_errors
  end.

(** [testTLMApprox], lines 100-125. *)
Definition testTLMApprox (m : vec -> result vec)
  (TLM : vec -> vec -> result vec) (tol : R)
  : result (bool * float_value) :=
  let rng := default_rng 12345 in
  let N := 100%nat in
  let '(u0, rng) := random rng N in
  v0 <- m u0 ;;
  let '(du, rng) := random rng N in
  dv <- TLM u0 du ;;
  let scale := 1 in
  '(_absolute_errors, relavite_errors) <-
     approx_loop m u0 du v0 dv 15 scale [] [] ;;
  min_relative_error <- np_min relavite_errors ;;
  Ok (float_ltb min_relative_error tol, min_relative_error).

(** [testADMApprox], lines 127-140. *)
Definition testADMApprox (TLM ADM : vec -> vec -> result vec) (tol : R)
  : result (bool * R) :=
  let rng := default_rng 12345 in
  let N := 100%nat in
  let '(u0, rng) := random rng N in
  let '(du, rng) := random rng N in
  dv <- TLM u0 du ;;
  let M := length dv in
  let '(Dv, rng) := random rng M in
  Du <- ADM u0 Dv ;;
  a <- np_dot dv Dv ;;
  b <- np_dot du Du ;;
  let absolute_error := Rabs (a - b) in
  Ok (Rltb absolute_error tol, absolute_error).

End Harness.

End Main.

(** ** Reference functions

    Total functions on lists that the statements below compare the
    program with.  They follow the formulas of the specification. *)

(** Periodic centered difference, [(u[i+1] - u[i-1]) / (2 dx)]. *)
Definition stencil (dx : R) (u : vec) : vec :=
  sdiv (map2 Rminus (roll u (-1)) (roll u 1)) (dx * 2).

(** The reverse-mode transpose of [stencil]. *)
Definition stencil_T (dx : R) (Dv : vec) : vec :=
  let g := sdiv Dv (dx * 2) in
  map2 Rplus (roll g 1) (roll (smul (-1) g) (-1)).

Definition rhs (v dx : R) (u : vec) : vec := smul (- v) (stencil dx u).
Definition rhs_T (v dx : R) (Dv : vec) : vec := smul (- v) (stencil_T dx Dv).

(** [u + dt g(u)], the Euler increment every stage is built from. *)
Definition euler (g : vec -> vec) (dt : R) (u : vec) : vec :=
  map2 Rplus u (smul dt (g u)).

(** The three-stage recurrence of section 4.3. *)
Definition ssp_rk3_step (g : vec -> vec) (dt : R) (u : vec) : vec :=
  let k1 := euler g dt u in
  let k2 := map2 Rplus (smul (3/4) u) (smul (1/4) (euler g dt k1)) in
  map2 Rplus (smul (1/3) u) (smul (2/3) (euler g dt k2)).

(** The reverse recurrence of section 4.5, for a transposed right-hand
    side [gT] that does not depend on the base state. *)
Definition ssp_rk3_step_T (gT : vec -> vec) (dt : R) (Dv : vec) : vec :=
  let Dk2' := euler gT dt (smul (2/3) Dv) in
  let Dv1 := map2 Rplus (smul (1/3) Dv) (smul (3/4) Dk2') in
  let Dk1' := euler gT dt (smul (1/4) Dk2') in
  map2 Rplus Dv1 (euler gT dt Dk1').

(** [step] applied [n] times in sequence, the first application innermost. *)
Fixpoint steps (n : nat) (step : vec -> vec) (u : vec) : vec :=
  match n with
  | O => u
  | S n' => steps n' step (step u)
  end.

Definition forward (v dx dt : R) (num_steps : nat) (u : vec) : vec :=
  steps num_steps (ssp_rk3_step (rhs v dx) dt) u.

Definition tangent (v dx dt : R) (num_steps : nat) (du : vec) : vec :=
  steps num_steps (ssp_rk3_step (rhs v dx) dt) du.

Definition adjoint (v dx dt : R) (num_steps : nat) (Dv : vec) : vec :=
  steps num_steps (ssp_rk3_step_T (rhs_T v dx) dt) Dv.

(** The sum of the entries of a vector. *)
Definition vsum (a : vec) : R := fold_right Rplus 0 a.

(** The scales of the Taylor-remainder test: [1, 1/10, 1/100, ...]. *)
Definition scale_at (i : nat) : R := / 10 ^ i.

(** The remainder the test measures at scale [s], for a forward map [fwd]
    with [v0 = fwd u0] and a linearization [dv]: the norm of
    [s dv - (fwd (u0 + s du) - v0)], and its floating-point quotient by
    the norm of [fwd (u0 + s du) - v0]. *)
Definition taylor_absolute_error (fwd : vec -> vec) (u0 du v0 dv : vec)
  (s : R) : R :=
  norm (map2 Rminus (smul s dv)
          (map2 Rminus (fwd (map2 Rplus u0 (smul s du))) v0)).

Definition taylor_relative_error (fwd : vec -> vec) (u0 du v0 dv : vec)
  (s : R) : float_value :=
  float_div (taylor_absolute_error fwd u0 du v0 dv s)
    (norm (map2 Rminus (fwd (map2 Rplus u0 (smul s du))) v0)).

(** [x <= y] on quotients; a NaN is comparable with nothing. *)
Definition float_le (x y : float_value) : Prop :=
  match x, y with
  | NaN, _ | _, NaN => False
  | NegInf, _ | _, PosInf => True
  | Finite a, Finite b => a <= b
  | _, _ => False
  end.

(** A value that is not negative: a NaN, the positive infinity or a real
    number that is not negative. *)
Definition float_nonneg (x : float_value) : Prop :=
  match x with
  | Finite r => 0 <= r
  | PosInf | NaN => True
  | NegInf => False
  end.

(** [x < y] for a quotient [x] and a real [y]. *)
Definition float_below (x : float_value) (y : R) : Prop :=
  match x with
  | Finite r => r < y
  | NegInf => True
  | PosInf | NaN => False
  end.

(** What [np.min] returns on the relative errors at the first fifteen
    scales. *)
Definition taylor_minimum (fwd : vec -> vec) (u0 du v0 dv : vec)
  : float_value :=
  fold_left float_min
    (map (fun i => taylor_relative_error fwd u0 du v0 dv (scale_at i))
       (seq 1 14))
    (taylor_relative_error fwd u0 du v0 dv (scale_at 0)).

(** Maps to run the checks on: the entrywise square, which is not linear,
    with its exact linearization [2 u du], and a generator whose draws are
    all [1]. *)
Definition square_map (x : vec) : vec := map (fun t => t * t) x.
Definition square_tangent (u du : vec) : vec :=
  map2 (fun a b => 2 * a * b) u du.
Definition unit_generator : Z -> nat -> R := fun _ _ => 1.

(** The two draws every check starts with: [u0], then [du]. *)
Definition drawn_u0 (bit_generator : Z -> nat -> R) : vec :=
  fst (Main.random bit_generator (Main.default_rng 12345) 100).

Definition drawn_du (bit_generator : Z -> nat -> R) : vec :=
  fst (Main.random bit_generator
         (snd (Main.random bit_generator (Main.default_rng 12345) 100)) 100).

(** The third draw of the adjoint check, [n] values. *)
Definition drawn_Dv (bit_generator : Z -> nat -> R) (n : nat) : vec :=
  fst (Main.random bit_generator
         (snd (Main.random bit_generator
                 (snd (Main.random bit_generator
                         (Main.default_rng 12345) 100)) 100)) n).

(** Circular index arithmetic: [i + k] modulo [n]. *)
Definition wrap (n : nat) (i : Z) : nat := Z.to_nat (i mod Z.of_nat n).

(** ** Lists, lengths and rolls *)

Lemma length_map2 op a b : length (map2 op a b) = Nat.min (length a) (length b).
Proof.
  revert b; induction a as [|x a IH]; intros [|y b]; simpl; auto.
Qed.

Lemma length_smul c a : length (smul c a) = length a.
Proof. apply length_map. Qed.

Lemma length_sdiv a c : length (sdiv a c) = length a.
Proof. apply length_map. Qed.

Lemma length_roll u k : length (roll u k) = length u.
Proof.
  unfold roll. rewrite length_app, length_skipn, length_firstn. lia.
Qed.

Create Rewrite HintDb len.
#[local] Hint Rewrite length_map2 length_smul length_sdiv length_roll
  length_map length_app Nat.min_id : len.

Ltac len := autorewrite with len in *; try lia.

Lemma broadcast2_same op a b :
  length a = length b -> broadcast2 op a b = Ok (map2 op a b).
Proof.
  intros H. unfold broadcast2. rewrite H, Nat.eqb_refl. reflexivity.
Qed.

Lemma map2_app op a1 a2 b1 b2 :
  length a1 = length b1 ->
  map2 op (a1 ++ a2) (b1 ++ b2) = map2 op a1 b1 ++ map2 op a2 b2.
Proof.
  revert b1; induction a1 as [|x a1 IH]; intros [|y b1] H;
    simpl in *; try discriminate; auto.
  f_equal. apply IH. lia.
Qed.

Lemma firstn_map2 op n a b :
  firstn n (map2 op a b) = map2 op (firstn n a) (firstn n b).
Proof.
  revert a b; induction n as [|n IH]; intros [|x a] [|y b]; simpl; auto.
  f_equal. apply IH.
Qed.

Lemma skipn_map2 op n a b :
  length a = length b ->
  skipn n (map2 op a b) = map2 op (skipn n a) (skipn n b).
Proof.
  revert a b; induction n as [|n IH]; intros [|x a] [|y b] H;
    simpl in *; try discriminate; auto.
Qed.

Lemma roll_map (h : R -> R) u k : roll (map h u) k = map h (roll u k).
Proof.
  unfold roll. rewrite length_map, map_app, skipn_map, firstn_map.
  reflexivity.
Qed.

Lemma roll_smul c u k : roll (smul c u) k = smul c (roll u k).
Proof. apply roll_map. Qed.

Lemma roll_sdiv u c k : roll (sdiv u c) k = sdiv (roll u k) c.
Proof. apply roll_map. Qed.

Lemma roll_map2 op a b k :
  length a = length b ->
  roll (map2 op a b) k = map2 op (roll a k) (roll b k).
Proof.
  intros H. unfold roll.
  rewrite length_map2, <- H, Nat.min_id.
  rewrite skipn_map2, firstn_map2 by assumption.
  symmetry. apply map2_app. rewrite !length_skipn. lia.
Qed.

Lemma nth_roll u k i d :
  (i < length u)%nat ->
  nth i (roll u k) d = nth (wrap (length u) (Z.of_nat i - k)) u d.
Proof.
  intros Hi. unfold roll, wrap.
  set (n := length u) in *.
  replace (Nat.max n 1) with n by lia.
  assert (Hn : (0 < Z.of_nat n)%Z) by lia.
  pose proof (Z.mod_pos_bound k (Z.of_nat n) Hn) as Hs.
  set (s := Z.to_nat (k mod Z.of_nat n)).
  assert (Es : Z.of_nat s = (k mod Z.of_nat n)%Z) by (unfold s; lia).
  rewrite <- Zminus_mod_idemp_r, <- Es.
  assert (Hl : length (skipn (n - s) u) = s)
    by (rewrite length_skipn; fold n; lia).
  destruct (Nat.lt_ge_cases i s) as [Hlt | Hge].
  - rewrite app_nth1 by lia. rewrite nth_skipn. f_equal.
    rewrite <- (Z_mod_plus_full _ 1), Z.mod_small by lia. lia.
  - rewrite app_nth2 by lia. rewrite Hl, nth_firstn.
    replace (i - s <? n - s)%nat with true
      by (symmetry; apply Nat.ltb_lt; lia).
    f_equal. rewrite Z.mod_small by lia. lia.
Qed.

Example roll_right : roll [1; 2; 3; 4] 1 = [4; 1; 2; 3].
Proof. reflexivity. Qed.

Example roll_left : roll [1; 2; 3; 4] (-1) = [2; 3; 4; 1].
Proof. reflexivity. Qed.

Example roll_past_length : roll [1; 2; 3; 4] 6 = [3; 4; 1; 2].
Proof. reflexivity. Qed.

Example roll_empty : roll [] 1 = [].
Proof. reflexivity. Qed.

Example vadd_mismatch : vadd [1; 2; 3] [1; 2] = Raise (ShapeError 3 2).
Proof. reflexivity. Qed.

Example vadd_stretch : vadd [1; 2; 3] [10] = Ok [1 + 10; 2 + 10; 3 + 10].
Proof. reflexivity. Qed.

Example advection_op_example :
  advection_op 1 [1; 2; 4; 8] = Ok [-3; 3 / 2; 3; -3 / 2].
Proof.
  unfold advection_op, vsub, broadcast2, sdiv, roll. simpl.
  repeat (f_equal; try lra).
Qed.

Lemma wrap_lt n i : (0 < n)%nat -> (wrap n i < n)%nat.
Proof.
  intros Hn. unfold wrap.
  pose proof (Z.mod_pos_bound i (Z.of_nat n)). lia.
Qed.

Lemma roll_roll u a b : roll (roll u a) b = roll u (a + b).
Proof.
  apply (nth_ext _ _ 0 0); [now rewrite !length_roll|].
  intros i Hi. rewrite !length_roll in Hi.
  rewrite (nth_roll (roll u a) b) by (rewrite length_roll; exact Hi).
  rewrite length_roll.
  rewrite (nth_roll u a) by (apply wrap_lt; lia).
  rewrite (nth_roll u (a + b)) by exact Hi.
  f_equal. unfold wrap.
  rewrite Z2Nat.id by (apply Z.mod_pos_bound; lia).
  rewrite Zminus_mod_idemp_l. do 2 f_equal. lia.
Qed.

Lemma roll_0 u : roll u 0 = u.
Proof.
  unfold roll. rewrite Zmod_0_l. simpl Z.to_nat.
  rewrite Nat.sub_0_r, skipn_all, firstn_all. reflexivity.
Qed.

Lemma roll_comm u a b : roll (roll u a) b = roll (roll u b) a.
Proof. rewrite !roll_roll. f_equal. lia. Qed.

(** ** The dot product *)

Lemma dot_comm a b : dot a b = dot b a.
Proof.
  revert b; induction a as [|x a IH]; intros [|y b]; simpl; auto.
  rewrite IH. ring.
Qed.

Lemma dot_map_l (c : R) a b : dot (map (Rmult c) a) b = c * dot a b.
Proof.
  revert b; induction a as [|x a IH]; intros [|y b]; simpl; try ring.
  rewrite IH. ring.
Qed.

Lemma dot_smul_l c a b : dot (smul c a) b = c * dot a b.
Proof. apply dot_map_l. Qed.

Lemma dot_smul_r c a b : dot a (smul c b) = c * dot a b.
Proof. rewrite dot_comm, dot_smul_l, dot_comm. reflexivity. Qed.

Lemma dot_sdiv_l a c b : dot (sdiv a c) b = dot a b / c.
Proof.
  revert b; induction a as [|x a IH]; intros [|y b]; simpl;
    unfold Rdiv; try ring.
  fold (sdiv a c). rewrite IH. unfold Rdiv. ring.
Qed.

Lemma dot_sdiv_r a b c : dot a (sdiv b c) = dot a b / c.
Proof. rewrite dot_comm, dot_sdiv_l, dot_comm. reflexivity. Qed.

Lemma dot_plus_l a b y :
  length a = length b ->
  dot (map2 Rplus a b) y = dot a y + dot b y.
Proof.
  revert b y; induction a as [|x a IH]; intros [|z b] [|w y] H;
    simpl in *; try discriminate; try ring.
  rewrite IH by lia. ring.
Qed.

Lemma dot_plus_r x a b :
  length a = length b ->
  dot x (map2 Rplus a b) = dot x a + dot x b.
Proof.
  intros H. rewrite dot_comm, dot_plus_l by assumption.
  rewrite (dot_comm a), (dot_comm b). reflexivity.
Qed.

Lemma dot_minus_l a b y :
  length a = length b ->
  dot (map2 Rminus a b) y = dot a y - dot b y.
Proof.
  revert b y; induction a as [|x a IH]; intros [|z b] [|w y] H;
    simpl in *; try discriminate; try ring.
  rewrite IH by lia. ring.
Qed.

Lemma dot_app a1 a2 b1 b2 :
  length a1 = length b1 ->
  dot (a1 ++ a2) (b1 ++ b2) = dot a1 b1 + dot a2 b2.
Proof.
  revert b1; induction a1 as [|x a1 IH]; intros [|y b1] H;
    simpl in *; try discriminate; try ring.
  rewrite IH by lia. ring.
Qed.

(** Rolling both arguments by the same shift permutes the terms of the
    sum. *)
Lemma dot_roll a b k :
  length a = length b -> dot (roll a k) (roll b k) = dot a b.
Proof.
  intros H. unfold roll. rewrite <- H.
  set (j := (length a - _)%nat).
  rewrite dot_app by (rewrite !length_skipn; lia).
  rewrite <- (firstn_skipn j a) at 3.
  rewrite <- (firstn_skipn j b) at 3.
  rewrite dot_app by (rewrite !length_firstn; lia).
  ring.
Qed.

(** The transpose of a roll is the opposite roll. *)
Lemma dot_roll_l a b k :
  length a = length b -> dot (roll a k) b = dot a (roll b (- k)).
Proof.
  intros H.
  rewrite <- (dot_roll (roll a k) b (- k)) by (rewrite length_roll; exact H).
  rewrite roll_roll. replace (k + - k)%Z with 0%Z by lia.
  rewrite roll_0. reflexivity.
Qed.

(** ** Scalar multiples *)

Lemma smul_plus c a b :
  map2 Rplus (smul c a) (smul c b) = smul c (map2 Rplus a b).
Proof.
  revert b; induction a as [|x a IH]; intros [|y b]; simpl; auto.
  fold (smul c a) (smul c b). rewrite IH. unfold smul at 2. simpl.
  f_equal. ring.
Qed.

Lemma smul_minus c a b :
  map2 Rminus (smul c a) (smul c b) = smul c (map2 Rminus a b).
Proof.
  revert b; induction a as [|x a IH]; intros [|y b]; simpl; auto.
  fold (smul c a) (smul c b). rewrite IH. unfold smul at 2. simpl.
  f_equal. ring.
Qed.

Lemma smul_smul a b x : smul a (smul b x) = smul b (smul a x).
Proof.
  unfold smul. rewrite !map_map. apply map_ext. intros; ring.
Qed.

Lemma sdiv_smul c a d : sdiv (smul c a) d = smul c (sdiv a d).
Proof.
  unfold sdiv, smul. rewrite !map_map. apply map_ext.
  intros; unfold Rdiv; ring.
Qed.

Lemma steps_last n (step : vec -> vec) u :
  steps (S n) step u = step (steps n step u).
Proof.
  revert u; induction n as [|n IH]; intros u; [reflexivity|].
  change (steps (S (S n)) step u) with (steps (S n) step (step u)).
  rewrite IH. reflexivity.
Qed.

(** ** The recurrence over an abstract right-hand side *)

Section Recurrence.

Variables (g gT : vec -> vec) (dt : R).
Hypothesis g_length : forall u, length (g u) = length u.
Hypothesis gT_length : forall u, length (gT u) = length u.

Lemma length_euler u : length (euler g dt u) = length u.
Proof. unfold euler. len. rewrite g_length. lia. Qed.

Lemma length_euler_T u : length (euler gT dt u) = length u.
Proof. unfold euler. len. rewrite gT_length. lia. Qed.

Hint Rewrite g_length gT_length length_euler length_euler_T : len.

Lemma length_ssp_rk3_step u : length (ssp_rk3_step g dt u) = length u.
Proof. unfold ssp_rk3_step. len. Qed.

Lemma length_ssp_rk3_step_T u : length (ssp_rk3_step_T gT dt u) = length u.
Proof. unfold ssp_rk3_step_T. len. Qed.

Lemma length_steps n u : length (steps n (ssp_rk3_step g dt) u) = length u.
Proof.
  revert u; induction n as [|n IH]; intros u; simpl; auto.
  rewrite IH. apply length_ssp_rk3_step.
Qed.

Lemma length_steps_T n u :
  length (steps n (ssp_rk3_step_T gT dt) u) = length u.
Proof.
  revert u; induction n as [|n IH]; intros u; simpl; auto.
  rewrite IH. apply length_ssp_rk3_step_T.
Qed.

(** *** Homogeneity *)

Hypothesis g_smul : forall c u, g (smul c u) = smul c (g u).

Lemma euler_smul c u : euler g dt (smul c u) = smul c (euler g dt u).
Proof.
  unfold euler. rewrite g_smul, (smul_smul dt c), smul_plus. reflexivity.
Qed.

Lemma ssp_rk3_step_smul c u :
  ssp_rk3_step g dt (smul c u) = smul c (ssp_rk3_step g dt u).
Proof.
  unfold ssp_rk3_step.
  rewrite !euler_smul, (smul_smul (3/4) c), (smul_smul (1/4) c), smul_plus.
  rewrite euler_smul, (smul_smul (1/3) c), (smul_smul (2/3) c), smul_plus.
  reflexivity.
Qed.

Lemma steps_smul n c u :
  steps n (ssp_rk3_step g dt) (smul c u)
  = smul c (steps n (ssp_rk3_step g dt) u).
Proof.
  revert u; induction n as [|n IH]; intros u; simpl; auto.
  rewrite ssp_rk3_step_smul. apply IH.
Qed.

(** *** Transposition *)

Hypothesis g_adjoint :
  forall a b, length a = length b -> dot (g a) b = dot a (gT b).

Lemma euler_adjoint a b :
  length a = length b -> dot (euler g dt a) b = dot a (euler gT dt b).
Proof.
  intros H. unfold euler.
  rewrite dot_plus_l, dot_plus_r by len.
  rewrite dot_smul_l, dot_smul_r, g_adjoint by exact H. reflexivity.
Qed.

Lemma ssp_rk3_step_adjoint x y :
  length x = length y ->
  dot (ssp_rk3_step g dt x) y = dot x (ssp_rk3_step_T gT dt y).
Proof.
  intros H. unfold ssp_rk3_step, ssp_rk3_step_T.
  rewrite !dot_plus_r by len.
  rewrite <- (euler_adjoint x) by len.
  rewrite <- (euler_adjoint (euler g dt x)) by len.
  rewrite !dot_smul_r.
  rewrite <- (euler_adjoint (euler g dt (euler g dt x))) by len.
  rewrite dot_smul_r.
  rewrite <- (euler_adjoint x) by len.
  rewrite !dot_smul_r.
  rewrite dot_plus_l by len. rewrite !dot_smul_l.
  rewrite (euler_adjoint (map2 _ _ _)) by len.
  rewrite dot_plus_l by len. rewrite !dot_smul_l.
  rewrite <- (euler_adjoint x) by len.
  rewrite <- (euler_adjoint (euler g dt (euler g dt x))) by len.
  field.
Qed.

Lemma steps_adjoint n x y :
  length x = length y ->
  dot (steps n (ssp_rk3_step g dt) x) y
  = dot x (steps n (ssp_rk3_step_T gT dt) y).
Proof.
  revert x y; induction n as [|n IH]; intros x y H; [reflexivity|].
  rewrite (steps_last n (ssp_rk3_step_T gT dt)).
  rewrite <- ssp_rk3_step_adjoint by (rewrite length_steps_T; exact H).
  simpl. apply IH. rewrite length_ssp_rk3_step. exact H.
Qed.

End Recurrence.

(** ** The centered difference *)

Lemma length_stencil dx u : length (stencil dx u) = length u.
Proof. unfold stencil. len. Qed.

Lemma length_stencil_T dx u : length (stencil_T dx u) = length u.
Proof. unfold stencil_T. len. Qed.

Lemma length_rhs v dx u : length (rhs v dx u) = length u.
Proof. unfold rhs. rewrite length_smul. apply length_stencil. Qed.

Lemma length_rhs_T v dx u : length (rhs_T v dx u) = length u.
Proof. unfold rhs_T. rewrite length_smul. apply length_stencil_T. Qed.

Lemma rhs_smul v dx c u : rhs v dx (smul c u) = smul c (rhs v dx u).
Proof.
  unfold rhs, stencil.
  rewrite !roll_smul, smul_minus, sdiv_smul. apply smul_smul.
Qed.

Lemma stencil_roll dx u k : stencil dx (roll u k) = roll (stencil dx u) k.
Proof.
  unfold stencil.
  rewrite roll_sdiv, roll_map2 by len.
  rewrite (roll_comm u k (-1)), (roll_comm u k 1). reflexivity.
Qed.

Lemma rhs_roll v dx u k : rhs v dx (roll u k) = roll (rhs v dx u) k.
Proof. unfold rhs. rewrite roll_smul, stencil_roll. reflexivity. Qed.

Lemma stencil_adjoint dx a b :
  length a = length b -> dot (stencil dx a) b = dot a (stencil_T dx b).
Proof.
  intros H. unfold stencil, stencil_T.
  rewrite dot_sdiv_l, dot_minus_l by len.
  rewrite !dot_roll_l by exact H. simpl Z.opp.
  rewrite dot_plus_r by len.
  rewrite roll_smul, !roll_sdiv, dot_smul_r, !dot_sdiv_r.
  unfold Rdiv. ring.
Qed.

Lemma rhs_adjoint v dx a b :
  length a = length b -> dot (rhs v dx a) b = dot a (rhs_T v dx b).
Proof.
  intros H. unfold rhs, rhs_T.
  rewrite dot_smul_l, dot_smul_r, stencil_adjoint by exact H. reflexivity.
Qed.

Lemma plus_opp_minus a b :
  map2 Rplus a (smul (-1) b) = smul (-1) (map2 Rminus b a).
Proof.
  revert b; induction a as [|x a IH]; intros [|y b]; simpl; auto.
  fold (smul (-1) b). rewrite IH. unfold smul at 2. simpl. f_equal. ring.
Qed.

Lemma sdiv_minus a b d :
  sdiv (map2 Rminus a b) d = map2 Rminus (sdiv a d) (sdiv b d).
Proof.
  revert b; induction a as [|x a IH]; intros [|y b]; simpl; auto.
  fold (sdiv (map2 Rminus a b) d) (sdiv a d) (sdiv b d). rewrite IH.
  f_equal. unfold Rdiv. ring.
Qed.

(** The transpose of the stencil is its negation. *)
Lemma stencil_T_opp dx u : stencil_T dx u = smul (-1) (stencil dx u).
Proof.
  unfold stencil_T, stencil.
  rewrite roll_smul, plus_opp_minus, sdiv_minus, !roll_sdiv. reflexivity.
Qed.

(** ** The program against the reference functions *)

Lemma advection_op_ok dx u : advection_op dx u = Ok (stencil dx u).
Proof.
  unfold advection_op, vsub. rewrite broadcast2_same by len. reflexivity.
Qed.

Lemma advection_op_vjp_ok dx u Dv :
  advection_op_vjp dx u Dv = Ok (stencil_T dx Dv).
Proof.
  unfold advection_op_vjp, vadd. rewrite broadcast2_same by len.
  reflexivity.
Qed.

Lemma f_evaluate v dx n u :
  evaluate (f v (create_advection_opeartor dx n)) u = Ok (rhs v dx u).
Proof. simpl. rewrite advection_op_ok. reflexivity. Qed.

Lemma f_directional_derivative v dx n u du :
  directional_derivative (f v (create_advection_opeartor dx n)) u du
  = Ok (rhs v dx du).
Proof.
  simpl. unfold advection_op_jvp. rewrite advection_op_ok. reflexivity.
Qed.

Lemma f_vector_jacobian_product v dx n u Dv :
  vector_jacobian_product (f v (create_advection_opeartor dx n)) u Dv
  = Ok (rhs_T v dx Dv).
Proof. simpl. rewrite advection_op_vjp_ok. reflexivity. Qed.

Section Integrators.

Variables (fd : diff_fn) (g gT : vec -> vec) (dt : R).
Hypothesis g_length : forall u, length (g u) = length u.
Hypothesis gT_length : forall u, length (gT u) = length u.
Hypothesis fd_evaluate : forall u, evaluate fd u = Ok (g u).
Hypothesis fd_directional_derivative :
  forall u du, directional_derivative fd u du = Ok (g du).
Hypothesis fd_vector_jacobian_product :
  forall u Dv, vector_jacobian_product fd u Dv = Ok (gT Dv).

Hint Rewrite g_length gT_length : len.
Hint Rewrite (length_euler g dt g_length) (length_euler_T gT dt gT_length)
  : len.

Ltac run :=
  repeat (rewrite ?fd_evaluate, ?fd_directional_derivative,
            ?fd_vector_jacobian_product;
          cbn [bind];
          rewrite ?broadcast2_same by len).

Lemma RK3_step_ok u : RK3_step fd dt u = Ok (ssp_rk3_step g dt u).
Proof. unfold RK3_step, vadd. run. reflexivity. Qed.

Lemma RK3_ok n u : RK3 fd u dt n = Ok (steps n (ssp_rk3_step g dt) u).
Proof.
  revert u; induction n as [|n IH]; intros u; simpl; auto.
  rewrite RK3_step_ok. simpl. apply IH.
Qed.

Lemma RK3_tlm_step_ok u du :
  RK3_tlm_step fd dt u du
  = Ok (ssp_rk3_step g dt u, ssp_rk3_step g dt du).
Proof. unfold RK3_tlm_step, vadd. run. reflexivity. Qed.

Lemma RK3_tlm_loop_ok n u du :
  RK3_tlm_loop fd dt n u du
  = Ok (steps n (ssp_rk3_step g dt) u, steps n (ssp_rk3_step g dt) du).
Proof.
  revert u du; induction n as [|n IH]; intros u du; simpl; auto.
  rewrite RK3_tlm_step_ok. simpl. apply IH.
Qed.

Lemma RK3_adm_step_ok u Dv :
  RK3_adm_step fd dt u Dv = Ok (ssp_rk3_step_T gT dt Dv).
Proof. unfold RK3_adm_step, vadd. run. reflexivity. Qed.

Lemma RK3_adm_loop_ok n u Dv :
  RK3_adm_loop fd dt n u Dv
  = Ok (steps n (ssp_rk3_step g dt) u, steps n (ssp_rk3_step_T gT dt) Dv).
Proof.
  revert u Dv; induction n as [|n IH]; intros u Dv; [reflexivity|].
  rewrite (steps_last n (ssp_rk3_step_T gT dt)).
  simpl. rewrite RK3_step_ok. simpl. rewrite IH. simpl.
  rewrite RK3_adm_step_ok. reflexivity.
Qed.

End Integrators.

(** ** The solvers against the reference functions *)

Lemma solver_rk3_eq u v dx num_points dt num_steps :
  solver_rk3 u v dx num_points dt num_steps
  = Ok (forward v dx dt num_steps u).
Proof.
  unfold solver_rk3, forward.
  apply (RK3_ok _ (rhs v dx)); intros.
  - apply length_rhs.
  - apply f_evaluate.
Qed.

Lemma solver_rk3_tlm_eq u du v dx num_points dt num_steps :
  solver_rk3_tlm u du v dx num_points dt num_steps
  = if (length du =? length u)%nat
    then Ok (tangent v dx dt num_steps du)
    else Raise (ShapeError (length u) (length du)).
Proof.
  unfold solver_rk3_tlm, RK3_tlm, tangent.
  destruct (length du =? length u)%nat; [|reflexivity].
  rewrite (RK3_tlm_loop_ok _ (rhs v dx)).
  - reflexivity.
  - apply length_rhs.
  - intros; apply f_evaluate.
  - intros; apply f_directional_derivative.
Qed.

Lemma solver_rk3_adm_eq u Dv v dx num_points dt num_steps :
  solver_rk3_adm u Dv v dx num_points dt num_steps
  = if (length Dv =? length u)%nat
    then Ok (adjoint v dx dt num_steps Dv)
    else Raise (ShapeError (length u) (length Dv)).
Proof.
  unfold solver_rk3_adm, RK3_adm, adjoint.
  destruct (length Dv =? length u)%nat; [|reflexivity].
  rewrite (RK3_adm_loop_ok _ (rhs v dx) (rhs_T v dx)).
  - reflexivity.
  - apply length_rhs.
  - apply length_rhs_T.
  - intros; apply f_evaluate.
  - intros; apply f_vector_jacobian_product.
Qed.

Lemma length_forward v dx dt n u : length (forward v dx dt n u) = length u.
Proof. apply length_steps, length_rhs. Qed.

Lemma length_tangent v dx dt n u : length (tangent v dx dt n u) = length u.
Proof. apply length_steps, length_rhs. Qed.

Lemma length_adjoint v dx dt n u : length (adjoint v dx dt n u) = length u.
Proof. apply length_steps_T, length_rhs_T. Qed.

Lemma ssp_rk3_step_roll g dt u k :
  (forall x, length (g x) = length x) ->
  (forall x, g (roll x k) = roll (g x) k) ->
  ssp_rk3_step g dt (roll u k) = roll (ssp_rk3_step g dt u) k.
Proof.
  intros Hl Hg.
  assert (He : forall x, euler g dt (roll x k) = roll (euler g dt x) k).
  { intros x. unfold euler.
    rewrite Hg, <- roll_smul, <- roll_map2; [reflexivity|].
    rewrite length_smul, Hl. reflexivity. }
  assert (Le : forall x, length (euler g dt x) = length x)
    by (intros; apply length_euler, Hl).
  unfold ssp_rk3_step.
  rewrite !He, <- !roll_smul.
  rewrite <- (roll_map2 Rplus (smul (3/4) u))
    by (rewrite !length_smul, !Le; reflexivity).
  rewrite He, <- roll_smul.
  rewrite <- roll_map2; [reflexivity|].
  rewrite !length_smul, Le, length_map2, !length_smul, !Le. lia.
Qed.

Lemma forward_roll v dx dt n u k :
  forward v dx dt n (roll u k) = roll (forward v dx dt n u) k.
Proof.
  unfold forward. revert u; induction n as [|n IH]; intros u; simpl; auto.
  rewrite ssp_rk3_step_roll.
  - apply IH.
  - apply length_rhs.
  - intros; apply rhs_roll.
Qed.

Lemma nth_smul c a i : nth i (smul c a) 0 = c * nth i a 0.
Proof.
  unfold smul. rewrite <- (map_nth (Rmult c)). f_equal. ring.
Qed.

Lemma nth_sdiv a c i : nth i (sdiv a c) 0 = nth i a 0 / c.
Proof.
  unfold sdiv. rewrite <- (map_nth (fun x => x / c)). f_equal.
  unfold Rdiv. ring.
Qed.

Lemma nth_map2 op a b i :
  (i < length a)%nat -> (i < length b)%nat ->
  nth i (map2 op a b) 0 = op (nth i a 0) (nth i b 0).
Proof.
  revert b i; induction a as [|x a IH]; intros [|y b] [|i] Ha Hb;
    simpl in *; try lia; auto.
  apply IH; lia.
Qed.

(** ** Properties of the solvers *)

(** C1 (adjoint identity).  For a perturbation [du] and a cotangent [Dv] of
    the state's length, the tangent-linear and the adjoint solver, run with
    the same [v], [dx], [num_points], [dt] and [num_steps], both return,
    and the dot product of [TLM(u0, du)] with [Dv] equals the dot product
    of [du] with [ADM(u0, Dv)]. *)
Theorem adjoint_identity (u0 du Dv : vec) (v dx : R) (num_points : nat)
  (dt : R) (num_steps : nat) :
  length du = length u0 ->
  length Dv = length u0 ->
  exists dv Du,
    solver_rk3_tlm u0 du v dx num_points dt num_steps = Ok dv /\
    solver_rk3_adm u0 Dv v dx num_points dt num_steps = Ok Du /\
    dot dv Dv = dot du Du.
Proof.
  intros Hdu HDv.
  exists (tangent v dx dt num_steps du), (adjoint v dx dt num_steps Dv).
  rewrite solver_rk3_tlm_eq, solver_rk3_adm_eq, Hdu, HDv, Nat.eqb_refl.
  repeat split.
  unfold tangent, adjoint. apply steps_adjoint.
  - apply length_rhs.
  - apply length_rhs_T.
  - intros; apply rhs_adjoint; assumption.
  - congruence.
Qed.

Lemma adjoint_identity_witness :
  exists dv Du,
    solver_rk3_tlm [1; 2; 3] [1; 0; 0] 1 1 3 1 2 = Ok dv /\
    solver_rk3_adm [1; 2; 3] [0; 1; 0] 1 1 3 1 2 = Ok Du /\
    dot dv [0; 1; 0] = dot [1; 0; 0] Du.
Proof.
  apply (adjoint_identity [1; 2; 3] [1; 0; 0] [0; 1; 0] 1 1 3 1 2);
    reflexivity.
Defined.

(** C2 (linearity of the tangent-linear solver).  For every state [u0],
    perturbation [du] and scalar [c], running the solver on [c du] is
    running it on [du] and scaling the result by [c]; when [du] has the
    state's length both runs return, so [TLM(u0, c du) = c TLM(u0, du)]. *)
Theorem tlm_linearity (u0 du : vec) (c v dx : R) (num_points : nat)
  (dt : R) (num_steps : nat) :
  solver_rk3_tlm u0 (smul c du) v dx num_points dt num_steps
  = (dv <- solver_rk3_tlm u0 du v dx num_points dt num_steps ;;
     Ok (smul c dv))
  /\ (length du = length u0 ->
      exists dv,
        solver_rk3_tlm u0 du v dx num_points dt num_steps = Ok dv /\
        solver_rk3_tlm u0 (smul c du) v dx num_points dt num_steps
        = Ok (smul c dv)).
Proof.
  assert (E : tangent v dx dt num_steps (smul c du)
              = smul c (tangent v dx dt num_steps du))
    by (unfold tangent; apply steps_smul; intros; apply rhs_smul).
  rewrite !solver_rk3_tlm_eq, length_smul, E. split.
  - destruct (length du =? length u0)%nat; reflexivity.
  - intros Hdu. exists (tangent v dx dt num_steps du).
    rewrite Hdu, Nat.eqb_refl. split; reflexivity.
Qed.

Lemma tlm_linearity_witness :
  exists dv,
    solver_rk3_tlm [1; 2; 3] [1; 0; 0] 1 1 3 1 2 = Ok dv /\
    solver_rk3_tlm [1; 2; 3] (smul 5 [1; 0; 0]) 1 1 3 1 2
    = Ok (smul 5 dv).
Proof.
  apply (tlm_linearity [1; 2; 3] [1; 0; 0] 5 1 1 3 1 2). reflexivity.
Defined.

(** C3 (the forward integrator).  [solver_rk3] always returns; its result
    is the three-stage recurrence [k1 = u + dt f(u)],
    [k2 = 3/4 u + 1/4 (k1 + dt f(k1))], [u' = 1/3 u + 2/3 (k2 + dt f(k2))]
    with [f = - v A], applied [num_steps] times in sequence; zero steps
    return the initial state, and [n + 1] steps are one step followed by
    [n] steps from the state that step produced. *)
Theorem solver_rk3_algorithm (u : vec) (v dx : R) (num_points : nat)
  (dt : R) (num_steps : nat) :
  solver_rk3 u v dx num_points dt num_steps
  = Ok (steps num_steps (ssp_rk3_step (rhs v dx) dt) u)
  /\ solver_rk3 u v dx num_points dt 0 = Ok u
  /\ solver_rk3 u v dx num_points dt 1 = Ok (ssp_rk3_step (rhs v dx) dt u)
  /\ solver_rk3 u v dx num_points dt (S num_steps)
     = (u1 <- solver_rk3 u v dx num_points dt 1 ;;
        solver_rk3 u1 v dx num_points dt num_steps).
Proof.
  rewrite !solver_rk3_eq. cbn [bind]. rewrite solver_rk3_eq.
  repeat split.
Qed.

(** C4 (the right-hand side).  On every vector [u] of length [N] the
    function [f] of the solvers returns a vector of length [N] whose entry
    [i] is [- v (u[i+1] - u[i-1]) / (2 dx)], the indices taken modulo
    [N]. *)
Theorem rhs_formula (v dx : R) (num_points : nat) (u : vec) :
  exists w,
    evaluate (f v (create_advection_opeartor dx num_points)) u = Ok w /\
    length w = length u /\
    forall i, (i < length u)%nat ->
      nth i w 0
      = - v * (nth (wrap (length u) (Z.of_nat i + 1)) u 0
               - nth (wrap (length u) (Z.of_nat i - 1)) u 0) / (2 * dx).
Proof.
  exists (rhs v dx u). rewrite f_evaluate.
  split; [reflexivity|]. split; [apply length_rhs|].
  intros i Hi. unfold rhs, stencil.
  rewrite nth_smul, nth_sdiv, nth_map2 by (rewrite length_roll; exact Hi).
  rewrite !nth_roll by exact Hi.
  replace (Z.of_nat i - -1)%Z with (Z.of_nat i + 1)%Z by lia.
  unfold Rdiv. rewrite (Rmult_comm dx 2). ring.
Qed.

(** C5 (anti-symmetry of the spatial operator).  For vectors [x], [y] of
    the same length the operator returns on both, and
    [<A(x), y> = - <x, A(y)>]. *)
Theorem advection_op_antisymmetric (dx : R) (n : nat) (x y : vec) :
  length x = length y ->
  exists Ax Ay,
    evaluate (create_advection_opeartor dx n) x = Ok Ax /\
    evaluate (create_advection_opeartor dx n) y = Ok Ay /\
    dot Ax y = - dot x Ay.
Proof.
  intros H. exists (stencil dx x), (stencil dx y). simpl.
  rewrite !advection_op_ok. repeat split.
  rewrite stencil_adjoint, stencil_T_opp, dot_smul_r by exact H. ring.
Qed.

Lemma advection_op_antisymmetric_witness :
  exists Ax Ay,
    evaluate (create_advection_opeartor 1 4) [1; 2; 3; 4] = Ok Ax /\
    evaluate (create_advection_opeartor 1 4) [0; 1; 0; 5] = Ok Ay /\
    dot Ax [0; 1; 0; 5] = - dot [1; 2; 3; 4] Ay.
Proof.
  apply (advection_op_antisymmetric 1 4 [1; 2; 3; 4] [0; 1; 0; 5]).
  reflexivity.
Defined.

(** C7 (shift equivariance).  Shifting the initial state circularly by one
    grid point and taking one forward step gives the circular shift of the
    step taken from the unshifted state; the same holds for every shift
    and every number of steps. *)
Theorem solver_rk3_shift (u : vec) (v dx : R) (num_points : nat) (dt : R) :
  (exists w,
     solver_rk3 u v dx num_points dt 1 = Ok w /\
     solver_rk3 (roll u 1) v dx num_points dt 1 = Ok (roll w 1))
  /\ forall (k : Z) (num_steps : nat),
     exists w,
       solver_rk3 u v dx num_points dt num_steps = Ok w /\
       solver_rk3 (roll u k) v dx num_points dt num_steps = Ok (roll w k).
Proof.
  split; [|intros k num_steps]; eexists; rewrite !solver_rk3_eq;
    (split; [reflexivity|]); f_equal; apply forward_roll.
Qed.

(** C10 (the operator ignores its second argument).  For every [dx] the
    operators built with two values of [n] are the same operator; on every
    vector, of any length, both return the same vector, of the length of
    the input: the length is never compared with [n]. *)
Theorem create_advection_opeartor_ignores_n (dx : R) (n1 n2 : nat) :
  create_advection_opeartor dx n1 = create_advection_opeartor dx n2
  /\ forall u : vec,
     exists w,
       evaluate (create_advection_opeartor dx n1) u = Ok w /\
       evaluate (create_advection_opeartor dx n2) u = Ok w /\
       length w = length u.
Proof.
  split; [reflexivity|]. intros u. exists (stencil dx u). simpl.
  rewrite advection_op_ok. repeat split. apply length_stencil.
Qed.

(** ** The verification harness *)

Lemma Rltb_true_iff x y : Rltb x y = true <-> x < y.
Proof.
  unfold Rltb. destruct (Rlt_dec x y); split; intros; auto; discriminate.
Qed.

Lemma float_ltb_below x tol : float_ltb x tol = true <-> float_below x tol.
Proof.
  destruct x; simpl; try apply Rltb_true_iff;
    split; intros; auto; discriminate.
Qed.

Lemma float_min_NaN_l y : float_min NaN y = NaN.
Proof. destruct y; reflexivity. Qed.

Lemma float_min_NaN_r x : float_min x NaN = NaN.
Proof. destruct x; reflexivity. Qed.

Lemma fold_float_min_NaN l : fold_left float_min l NaN = NaN.
Proof.
  induction l as [|y l IH]; [reflexivity|].
  cbn [fold_left]. rewrite float_min_NaN_l. exact IH.
Qed.

Lemma fold_float_min_In_NaN l :
  forall x, In NaN l -> fold_left float_min l x = NaN.
Proof.
  induction l as [|y l IH]; intros x H; simpl in *; [tauto|].
  destruct H as [-> | H].
  - rewrite float_min_NaN_r. apply fold_float_min_NaN.
  - apply IH, H.
Qed.

Lemma float_le_trans x y z : float_le x y -> float_le y z -> float_le x z.
Proof.
  destruct x, y, z; simpl; try tauto. intros; lra.
Qed.

Lemma float_min_spec x y :
  x <> NaN -> y <> NaN ->
  float_min x y <> NaN /\
  float_le (float_min x y) x /\ float_le (float_min x y) y /\
  (float_min x y = x \/ float_min x y = y).
Proof.
  intros Hx Hy.
  destruct x as [a| | |], y as [b| | |]; simpl; try congruence;
    repeat split; auto; try discriminate; try lra.
  - apply Rmin_l.
  - apply Rmin_r.
  - unfold Rmin. destruct (Rle_dec a b); auto.
Qed.

Lemma fold_float_min_spec l :
  forall x, x <> NaN -> (forall y, In y l -> y <> NaN) ->
    fold_left float_min l x <> NaN /\
    float_le (fold_left float_min l x) x /\
    (forall y, In y l -> float_le (fold_left float_min l x) y) /\
    In (fold_left float_min l x) (x :: l).
Proof.
  induction l as [|z l IH]; intros x Hx Hl; simpl.
  - repeat split; auto; try tauto.
    destruct x; simpl; auto; try lra; congruence.
  - destruct (float_min_spec x z Hx (Hl z (or_introl eq_refl)))
      as (Hn & Hlx & Hlz & Hc).
    destruct (IH (float_min x z) Hn (fun y H => Hl y (or_intror H)))
      as (Gn & Gle & Gall & Gin).
    repeat split.
    + exact Gn.
    + eapply float_le_trans; eauto.
    + intros y [<- | Hy]; [eapply float_le_trans; eauto | auto].
    + destruct Gin as [G | G]; [|auto].
      rewrite <- G. destruct Hc as [-> | ->]; auto.
Qed.

Lemma scale_at_0 : scale_at 0 = 1.
Proof. unfold scale_at. simpl. field. Qed.

Lemma scale_at_S i : scale_at (S i) = scale_at i / 10.
Proof.
  unfold scale_at. simpl. field. apply pow_nonzero. lra.
Qed.

Lemma length_drawn_u0 bg : length (drawn_u0 bg) = 100%nat.
Proof. reflexivity. Qed.

Lemma length_drawn_du bg : length (drawn_du bg) = 100%nat.
Proof. reflexivity. Qed.

Lemma length_drawn_Dv bg n : length (drawn_Dv bg n) = n.
Proof.
  unfold drawn_Dv, Main.random. simpl fst.
  rewrite length_map, length_seq. reflexivity.
Qed.

Section Loop.

Variables (m : vec -> result vec) (fwd : vec -> vec).
Variables (u0 du v0 dv : vec).
Hypothesis m_ok : forall x, m x = Ok (fwd x).
Hypothesis fwd_length : forall x, length (fwd x) = length x.
Hypothesis du_length : length du = length u0.
Hypothesis v0_length : length v0 = length u0.
Hypothesis dv_length : length dv = length u0.

Lemma approx_loop_eq n : forall j absolute_errors relavite_errors,
  Main.approx_loop m u0 du v0 dv n (scale_at j)
    absolute_errors relavite_errors
  = Ok (absolute_errors
          ++ map (fun i => taylor_absolute_error fwd u0 du v0 dv (scale_at i))
               (seq j n),
        relavite_errors
          ++ map (fun i => taylor_relative_error fwd u0 du v0 dv (scale_at i))
               (seq j n)).
Proof.
  induction n as [|n IH]; intros j ae re; simpl.
  - rewrite !app_nil_r. reflexivity.
  - unfold vadd, vsub.
    rewrite broadcast2_same by (rewrite length_smul; lia). cbn [bind].
    rewrite m_ok. cbn [bind].
    assert (Hx : length (fwd (map2 Rplus u0 (smul (scale_at j) du)))
                 = length u0)
      by (rewrite fwd_length, length_map2, length_smul; lia).
    rewrite broadcast2_same by lia. cbn [bind].
    rewrite broadcast2_same
      by (rewrite length_smul, length_map2; lia).
    cbn [bind].
    rewrite <- scale_at_S, IH, <- !app_assoc. reflexivity.
Qed.

End Loop.

Section Checks.

Variable bit_generator : Z -> nat -> R.
Variables (m : vec -> result vec) (fwd : vec -> vec).
Variables (TLM ADM : vec -> vec -> result vec).
Variable tol : R.

Let u0 := drawn_u0 bit_generator.
Let du := drawn_du bit_generator.

Ltac draw :=
  unfold Main.random;
  cbn [fst snd Main.seed Main.drawn Main.default_rng];
  change (map (bit_generator 12345%Z) (seq 0 100)) with u0;
  change (map (bit_generator 12345%Z) (seq (0 + 100) 100)) with du.

Lemma testTLMLinearity_eq dv dv2 :
  TLM u0 du = Ok dv ->
  TLM u0 (smul 2 du) = Ok dv2 ->
  length dv2 = length dv ->
  Main.testTLMLinearity bit_generator TLM tol
  = Ok (Rltb (norm (map2 Rminus dv2 (smul 2 dv))) tol,
        norm (map2 Rminus dv2 (smul 2 dv))).
Proof.
  intros H1 H2 Hl. unfold Main.testTLMLinearity. draw.
  rewrite H1. cbn [bind]. rewrite H2. cbn [bind]. unfold vsub.
  rewrite broadcast2_same by (rewrite length_smul; exact Hl).
  reflexivity.
Qed.

Lemma testADMApprox_eq dv Du :
  TLM u0 du = Ok dv ->
  ADM u0 (drawn_Dv bit_generator (length dv)) = Ok Du ->
  length Du = 100%nat ->
  Main.testADMApprox bit_generator TLM ADM tol
  = Ok (Rltb (Rabs (dot dv (drawn_Dv bit_generator (length dv))
                    - dot du Du)) tol,
        Rabs (dot dv (drawn_Dv bit_generator (length dv)) - dot du Du)).
Proof.
  intros H1 H2 HDu. unfold Main.testADMApprox. draw.
  rewrite H1. cbn [bind].
  change (map (bit_generator 12345%Z) (seq (0 + 100 + 100) (length dv)))
    with (drawn_Dv bit_generator (length dv)).
  rewrite H2. cbn [bind]. unfold np_dot.
  rewrite length_drawn_Dv, Nat.eqb_refl. cbn [bind].
  unfold du. rewrite length_drawn_du, HDu, Nat.eqb_refl. reflexivity.
Qed.

Hypothesis m_ok : forall x, m x = Ok (fwd x).
Hypothesis fwd_length : forall x, length (fwd x) = length x.

Lemma testTLMApprox_eq dv :
  TLM u0 du = Ok dv ->
  length dv = 100%nat ->
  Main.testTLMApprox bit_generator m TLM tol
  = Ok (float_ltb (taylor_minimum fwd u0 du (fwd u0) dv) tol,
        taylor_minimum fwd u0 du (fwd u0) dv).
Proof.
  intros HT Hdv.
  unfold Main.testTLMApprox. draw.
  rewrite m_ok. cbn [bind]. rewrite HT. cbn [bind].
  rewrite <- scale_at_0.
  rewrite (approx_loop_eq m fwd u0 du (fwd u0) dv m_ok fwd_length
             eq_refl (fwd_length u0) Hdv).
  reflexivity.
Qed.

End Checks.

Lemma m_total x :
  Main.m x = Ok (forward Main.v Main.dx Main.dt Main.num_steps x).
Proof. apply solver_rk3_eq. Qed.

Lemma TLM_total u du :
  length du = length u ->
  exists dv, Main.TLM u du = Ok dv /\ length dv = length u.
Proof.
  intros H. unfold Main.TLM.
  rewrite solver_rk3_tlm_eq, H, Nat.eqb_refl.
  eexists. split; [reflexivity|]. rewrite length_tangent. exact H.
Qed.

Lemma ADM_total u Dv :
  length Dv = length u ->
  exists Du, Main.ADM u Dv = Ok Du /\ length Du = length u.
Proof.
  intros H. unfold Main.ADM.
  rewrite solver_rk3_adm_eq, H, Nat.eqb_refl.
  eexists. split; [reflexivity|]. rewrite length_adjoint. exact H.
Qed.

(** *** Norms and entries *)

Lemma dot_self_nonneg a : 0 <= dot a a.
Proof.
  induction a as [|x a IH]; simpl; [lra|]. nra.
Qed.

Lemma sqr_nth_le_dot a : forall i, nth i a 0 * nth i a 0 <= dot a a.
Proof.
  induction a as [|x a IH]; intros [|i]; simpl; try lra.
  - pose proof (dot_self_nonneg a). lra.
  - pose proof (IH i). nra.
Qed.

Lemma norm_ge_nth a i : Rabs (nth i a 0) <= norm a.
Proof.
  unfold norm. rewrite <- sqrt_Rsqr_abs.
  apply sqrt_le_1_alt. unfold Rsqr. apply sqr_nth_le_dot.
Qed.

Lemma nth_drawn_u0 bg i :
  (i < 100)%nat -> nth i (drawn_u0 bg) 0 = bg 12345%Z i.
Proof.
  intros Hi. unfold drawn_u0, Main.random.
  cbn [fst snd Main.seed Main.drawn Main.default_rng].
  set (g := bg _).
  rewrite (nth_indep _ 0 (g 0%nat))
    by (rewrite length_map, length_seq; exact Hi).
  rewrite map_nth, seq_nth by exact Hi. reflexivity.
Qed.

Lemma nth_drawn_du bg i :
  (i < 100)%nat -> nth i (drawn_du bg) 0 = bg 12345%Z (100 + i)%nat.
Proof.
  intros Hi. unfold drawn_du, Main.random.
  cbn [fst snd Main.seed Main.drawn Main.default_rng].
  set (g := bg _).
  rewrite (nth_indep _ 0 (g 0%nat))
    by (rewrite length_map, length_seq; exact Hi).
  rewrite map_nth, seq_nth by exact Hi. reflexivity.
Qed.

Lemma length_square_map x : length (square_map x) = length x.
Proof. apply length_map. Qed.

Lemma length_square_tangent u du :
  length (square_tangent u du) = Nat.min (length u) (length du).
Proof. apply length_map2. Qed.

Lemma nth_square_map x i :
  nth i (square_map x) 0 = nth i x 0 * nth i x 0.
Proof.
  unfold square_map. rewrite <- (map_nth (fun t => t * t)).
  f_equal. ring.
Qed.

#[local] Hint Rewrite length_square_map length_square_tangent
  length_drawn_u0 length_drawn_du : len.

Lemma scale_at_pos i : 0 < scale_at i.
Proof.
  unfold scale_at. apply Rinv_0_lt_compat, pow_lt. lra.
Qed.

Lemma tol_le_1 : / 10 ^ 13 <= 1.
Proof.
  rewrite <- Rinv_1. apply Rinv_le_contravar; [lra|].
  apply pow_R1_Rle. lra.
Qed.

(** On all-one draws the square map has, at every scale, a relative error
    that is a positive real number. *)
Lemma square_relative_error_positive i :
  exists r,
    taylor_relative_error square_map (drawn_u0 unit_generator)
      (drawn_du unit_generator) (square_map (drawn_u0 unit_generator))
      (square_tangent (drawn_u0 unit_generator) (drawn_du unit_generator))
      (scale_at i) = Finite r
    /\ 0 < r.
Proof.
  set (u1 := drawn_u0 unit_generator). set (du1 := drawn_du unit_generator).
  set (s := scale_at i). assert (Hs : 0 < s) by apply scale_at_pos.
  assert (Eu : nth 0 u1 0 = 1) by (apply (nth_drawn_u0 unit_generator); lia).
  assert (Ed : nth 0 du1 0 = 1) by (apply (nth_drawn_du unit_generator); lia).
  set (D := map2 Rminus (square_map (map2 Rplus u1 (smul s du1)))
              (square_map u1)).
  set (A := map2 Rminus (smul s (square_tangent u1 du1)) D).
  assert (ED : nth 0 D 0 = 2 * s + s * s).
  { unfold D. rewrite nth_map2 by (unfold u1, du1; len).
    rewrite !nth_square_map, nth_map2 by (unfold u1, du1; len).
    rewrite nth_smul, Eu, Ed. ring. }
  assert (EA : nth 0 A 0 = - (s * s)).
  { unfold A. rewrite nth_map2 by (unfold D, u1, du1; len).
    rewrite ED, nth_smul. unfold square_tangent.
    rewrite nth_map2 by (unfold u1, du1; len).
    rewrite Eu, Ed. ring. }
  assert (HD : 0 < norm D).
  { pose proof (norm_ge_nth D 0) as H. rewrite ED in H.
    rewrite Rabs_pos_eq in H by nra. nra. }
  assert (HA : 0 < norm A).
  { pose proof (norm_ge_nth A 0) as H. rewrite EA, Rabs_Ropp in H.
    rewrite Rabs_pos_eq in H by nra. nra. }
  exists (norm A / norm D).
  unfold taylor_relative_error, taylor_absolute_error, float_div.
  fold D. fold A.
  destruct (Req_EM_T (norm D) 0) as [E | _]; [lra|].
  split; [reflexivity|]. apply Rdiv_lt_0_compat; assumption.
Qed.

(** On all-one draws, squaring the perturbation is not linear in it: the
    linearity check measures at least 2. *)
Lemma square_linearity_error :
  2 <= norm (map2 Rminus (square_map (smul 2 (drawn_du unit_generator)))
               (smul 2 (square_map (drawn_du unit_generator)))).
Proof.
  set (du1 := drawn_du unit_generator).
  assert (Ed : nth 0 du1 0 = 1) by (apply (nth_drawn_du unit_generator); lia).
  pose proof (norm_ge_nth
                (map2 Rminus (square_map (smul 2 du1))
                   (smul 2 (square_map du1))) 0) as H.
  rewrite nth_map2 in H by (unfold du1; len).
  rewrite nth_smul, !nth_square_map, nth_smul, Ed in H.
  replace (2 * 1 * (2 * 1) - 2 * (1 * 1)) with 2 in H by ring.
  rewrite Rabs_pos_eq in H by lra. exact H.
Qed.

(** C6 (the Taylor-remainder check).  Let [m] be a forward map that
    returns a vector of its argument's length on every input, and let
    [TLM] return [dv], of the state's length, on the drawn [u0] and [du].
    The scales are [1] and then each one tenth of the previous.  With
    [v0 = m(u0)], [testTLMApprox] returns a flag and a value: the value is
    what [np.min] gives on the 15 relative errors
    [|s dv - (m(u0 + s du) - v0)| / |m(u0 + s du) - v0|] at the first 15
    scales, each a floating-point quotient.  It is NaN when one of them is
    NaN ([0 / 0]); otherwise it is one of the 15 and is below or equal to
    each of them.  The flag is true exactly when the value is below the
    tolerance, which a NaN or an infinity never is. *)
Theorem testTLMApprox_algorithm (bit_generator : Z -> nat -> R)
  (m : vec -> result vec) (fwd : vec -> vec)
  (TLM : vec -> vec -> result vec) (dv : vec) (tol : R) :
  (forall x, m x = Ok (fwd x)) ->
  (forall x, length (fwd x) = length x) ->
  TLM (drawn_u0 bit_generator) (drawn_du bit_generator) = Ok dv ->
  length dv = 100%nat ->
  scale_at 0 = 1 /\
  (forall i, scale_at (S i) = scale_at i / 10) /\
  exists success minimum,
    Main.testTLMApprox bit_generator m TLM tol = Ok (success, minimum) /\
    (success = true <-> float_below minimum tol) /\
    ((exists i, (i < 15)%nat /\
        taylor_relative_error fwd (drawn_u0 bit_generator)
          (drawn_du bit_generator) (fwd (drawn_u0 bit_generator)) dv
          (scale_at i) = NaN) ->
     minimum = NaN) /\
    ((forall i, (i < 15)%nat ->
        taylor_relative_error fwd (drawn_u0 bit_generator)
          (drawn_du bit_generator) (fwd (drawn_u0 bit_generator)) dv
          (scale_at i) <> NaN) ->
     (forall i, (i < 15)%nat ->
        float_le minimum
          (taylor_relative_error fwd (drawn_u0 bit_generator)
             (drawn_du bit_generator) (fwd (drawn_u0 bit_generator)) dv
             (scale_at i))) /\
     (exists i, (i < 15)%nat /\
        minimum = taylor_relative_error fwd (drawn_u0 bit_generator)
                    (drawn_du bit_generator)
                    (fwd (drawn_u0 bit_generator)) dv (scale_at i))).
Proof.
  intros Hm Hl HT Hdv.
  split; [apply scale_at_0|]. split; [apply scale_at_S|].
  pose proof (testTLMApprox_eq bit_generator m fwd TLM tol Hm Hl dv HT Hdv)
    as E.
  unfold taylor_minimum in E.
  set (rel := fun i : nat =>
         taylor_relative_error fwd (drawn_u0 bit_generator)
           (drawn_du bit_generator) (fwd (drawn_u0 bit_generator)) dv
           (scale_at i)) in *.
  change (taylor_relative_error fwd (drawn_u0 bit_generator)
            (drawn_du bit_generator) (fwd (drawn_u0 bit_generator)) dv
            (scale_at 0)) with (rel 0%nat) in E.
  set (mn := fold_left float_min (map rel (seq 1 14)) (rel 0%nat)) in *.
  exists (float_ltb mn tol), mn.
  split; [exact E|]. split; [apply float_ltb_below|]. split.
  - intros ([|i] & Hi & HN); unfold mn; change (rel 0%nat = NaN) in HN
      || change (rel (S i) = NaN) in HN.
    + rewrite HN. apply fold_float_min_NaN.
    + apply fold_float_min_In_NaN. rewrite <- HN.
      apply in_map, in_seq. lia.
  - intros Hfin.
    destruct (fold_float_min_spec (map rel (seq 1 14)) (rel 0%nat))
      as (_ & H0 & Hall & Hin).
    + apply (Hfin 0%nat). lia.
    + intros y Hy. apply in_map_iff in Hy. destruct Hy as (i & <- & Hs).
      apply in_seq in Hs. apply (Hfin i). lia.
    + split.
      * intros [|i] Hi; [exact H0|].
        apply Hall. change (In (rel (S i)) (map rel (seq 1 14))).
        apply in_map, in_seq. lia.
      * destruct Hin as [H | H].
        -- exists 0%nat. split; [lia | symmetry; exact H].
        -- apply in_map_iff in H. destruct H as (i & Hi & Hs).
           apply in_seq in Hs. exists i.
           split; [lia | symmetry; exact Hi].
Qed.

Lemma testTLMApprox_algorithm_witness :
  exists success minimum r,
    Main.testTLMApprox unit_generator (fun x => Ok (square_map x))
      (fun u du => Ok (square_tangent u du)) (/ 10 ^ 13)
    = Ok (success, minimum) /\
    (success = true <-> float_below minimum (/ 10 ^ 13)) /\
    minimum = Finite r /\ 0 < r /\
    (forall i, (i < 15)%nat ->
       float_le minimum
         (taylor_relative_error square_map (drawn_u0 unit_generator)
            (drawn_du unit_generator)
            (square_map (drawn_u0 unit_generator))
            (square_tangent (drawn_u0 unit_generator)
               (drawn_du unit_generator))
            (scale_at i))) /\
    (exists i, (i < 15)%nat /\
       minimum = taylor_relative_error square_map
                   (drawn_u0 unit_generator) (drawn_du unit_generator)
                   (square_map (drawn_u0 unit_generator))
                   (square_tangent (drawn_u0 unit_generator)
                      (drawn_du unit_generator))
                   (scale_at i)).
Proof.
  destruct (testTLMApprox_algorithm unit_generator
              (fun x => Ok (square_map x)) square_map
              (fun u du => Ok (square_tangent u du))
              (square_tangent (drawn_u0 unit_generator)
                 (drawn_du unit_generator))
              (/ 10 ^ 13))
    as (_ & _ & success & minimum & E & Hs & _ & Hmin).
  - intros x. reflexivity.
  - apply length_square_map.
  - reflexivity.
  - rewrite length_square_tangent, length_drawn_u0, length_drawn_du.
    reflexivity.
  - destruct Hmin as (Hle & i & Hi & Hi').
    + intros i _ HN.
      destruct (square_relative_error_positive i) as (r & Hr & _).
      rewrite Hr in HN. discriminate HN.
    + destruct (square_relative_error_positive i) as (r & Hr & Hpos).
      exists success, minimum, r.
      repeat split; try apply Hs; auto.
      * rewrite Hi'. exact Hr.
      * exists i. split; [exact Hi | exact Hi'].
Defined.

(** C9 (the harness reports failure as data).  Let the forward map return
    vectors of its argument's length, let [TLM] return [dv] on the drawn
    [u0], [du] and [dv2] on [u0], [2 du], and let [ADM] return [Du] on the
    drawn cotangent, all of the state's length.  Then every check returns
    a pair.  The linearity check returns the norm of [dv2 - 2 dv], the
    Taylor-remainder check the least relative error, the adjoint check
    [|<dv,Dv> - <du,Du>|], each with the flag [measure < tol]; a measure
    that is not below the tolerance is returned with the flag false, and
    nothing is raised. *)
Theorem harness_reports_failure_as_data (bit_generator : Z -> nat -> R)
  (m : vec -> result vec) (fwd : vec -> vec)
  (TLM ADM : vec -> vec -> result vec) (tol : R) (dv dv2 Du : vec) :
  (forall x, m x = Ok (fwd x)) ->
  (forall x, length (fwd x) = length x) ->
  TLM (drawn_u0 bit_generator) (drawn_du bit_generator) = Ok dv ->
  length dv = 100%nat ->
  TLM (drawn_u0 bit_generator) (smul 2 (drawn_du bit_generator)) = Ok dv2 ->
  length dv2 = 100%nat ->
  ADM (drawn_u0 bit_generator) (drawn_Dv bit_generator 100) = Ok Du ->
  length Du = 100%nat ->
  let e1 := norm (map2 Rminus dv2 (smul 2 dv)) in
  let e2 := taylor_minimum fwd (drawn_u0 bit_generator)
              (drawn_du bit_generator) (fwd (drawn_u0 bit_generator)) dv in
  let e3 := Rabs (dot dv (drawn_Dv bit_generator 100)
                  - dot (drawn_du bit_generator) Du) in
  Main.testTLMLinearity bit_generator TLM tol = Ok (Rltb e1 tol, e1) /\
  Main.testTLMApprox bit_generator m TLM tol = Ok (float_ltb e2 tol, e2) /\
  Main.testADMApprox bit_generator TLM ADM tol = Ok (Rltb e3 tol, e3) /\
  (tol <= e1 ->
   Main.testTLMLinearity bit_generator TLM tol = Ok (false, e1)) /\
  (~ float_below e2 tol ->
   Main.testTLMApprox bit_generator m TLM tol = Ok (false, e2)) /\
  (tol <= e3 ->
   Main.testADMApprox bit_generator TLM ADM tol = Ok (false, e3)).
Proof.
  intros Hm Hl HT Hdv HT2 Hdv2 HA HDu e1 e2 e3.
  assert (E1 : Main.testTLMLinearity bit_generator TLM tol
               = Ok (Rltb e1 tol, e1))
    by (apply testTLMLinearity_eq; congruence).
  assert (E2 : Main.testTLMApprox bit_generator m TLM tol
               = Ok (float_ltb e2 tol, e2))
    by (apply testTLMApprox_eq; assumption).
  assert (E3 : Main.testADMApprox bit_generator TLM ADM tol
               = Ok (Rltb e3 tol, e3)).
  { unfold e3. rewrite <- Hdv.
    apply testADMApprox_eq; [exact HT | rewrite Hdv; exact HA | exact HDu]. }
  assert (F : forall e, tol <= e -> Rltb e tol = false).
  { intros e He. unfold Rltb. destruct (Rlt_dec e tol); [lra | reflexivity]. }
  repeat split; auto.
  - intros H. rewrite E1, (F e1 H). reflexivity.
  - intros H. rewrite E2. f_equal. f_equal.
    destruct (float_ltb e2 tol) eqn:B; [|reflexivity].
    apply float_ltb_below in B. contradiction.
  - intros H. rewrite E3, (F e3 H). reflexivity.
Qed.

Lemma harness_reports_failure_as_data_witness :
  / 10 ^ 13
  <= norm (map2 Rminus (square_map (smul 2 (drawn_du unit_generator)))
             (smul 2 (square_map (drawn_du unit_generator)))) /\
  Main.testTLMLinearity unit_generator (fun _ du => Ok (square_map du))
    (/ 10 ^ 13)
  = Ok (false,
        norm (map2 Rminus (square_map (smul 2 (drawn_du unit_generator)))
                (smul 2 (square_map (drawn_du unit_generator))))) /\
  (exists e2,
     Main.testTLMApprox unit_generator (fun x => Ok x)
       (fun _ du => Ok (square_map du)) (/ 10 ^ 13)
     = Ok (float_ltb e2 (/ 10 ^ 13), e2)) /\
  (exists e3,
     Main.testADMApprox unit_generator (fun _ du => Ok (square_map du))
       (fun _ Dv => Ok Dv) (/ 10 ^ 13)
     = Ok (Rltb e3 (/ 10 ^ 13), e3)).
Proof.
  assert (He : / 10 ^ 13
               <= norm (map2 Rminus
                          (square_map (smul 2 (drawn_du unit_generator)))
                          (smul 2 (square_map (drawn_du unit_generator))))).
  { pose proof square_linearity_error. pose proof tol_le_1. lra. }
  destruct (harness_reports_failure_as_data unit_generator
              (fun x => Ok x) (fun x => x)
              (fun _ du => Ok (square_map du)) (fun _ Dv => Ok Dv)
              (/ 10 ^ 13) (square_map (drawn_du unit_generator))
              (square_map (smul 2 (drawn_du unit_generator)))
              (drawn_Dv unit_generator 100))
    as (_ & E2 & E3 & F1 & _).
  - intros x. reflexivity.
  - intros x. reflexivity.
  - reflexivity.
  - rewrite length_square_map. apply length_drawn_du.
  - reflexivity.
  - rewrite length_square_map, length_smul. apply length_drawn_du.
  - reflexivity.
  - apply length_drawn_Dv.
  - split; [exact He|]. split; [exact (F1 He)|].
    split; eexists; [exact E2 | exact E3].
Defined.

(** C8 (dimension checks), as the program has them.  The solvers of lines
    19-47 are the integrators of [rk3] applied to the right-hand side,
    the vectors, [dt] and [num_steps]: they test no length themselves,
    they return the integrator's result and raise what it raises.
    [num_points] reaches only the spatial operator, which ignores it: for
    any integrator the outcome of a solver is the same for every
    [num_points], and the right-hand side it is handed returns on a state
    of any length.  So a state whose length disagrees with [num_points]
    is not detected, and a perturbation or cotangent of another length
    fails exactly when the integrator of [rk3] raises on it. *)
Theorem dimension_checks
  (I_fwd : diff_fn -> vec -> R -> nat -> result vec)
  (I_tlm I_adm : diff_fn -> vec -> vec -> R -> nat -> result (vec * vec))
  (u du Dv : vec) (v dx : R) (num_points num_points' : nat)
  (dt : R) (num_steps : nat) :
  (solver_rk3 = solver_rk3_with RK3
   /\ solver_rk3_tlm = solver_rk3_tlm_with RK3_tlm
   /\ solver_rk3_adm = solver_rk3_adm_with RK3_adm)
  /\ (solver_rk3_with I_fwd u v dx num_points' dt num_steps
      = solver_rk3_with I_fwd u v dx num_points dt num_steps
      /\ solver_rk3_tlm_with I_tlm u du v dx num_points' dt num_steps
         = solver_rk3_tlm_with I_tlm u du v dx num_points dt num_steps
      /\ solver_rk3_adm_with I_adm u Dv v dx num_points' dt num_steps
         = solver_rk3_adm_with I_adm u Dv v dx num_points dt num_steps)
  /\ (solver_rk3_with I_fwd u v dx num_points dt num_steps
      = I_fwd (f v (create_advection_opeartor dx num_points)) u dt num_steps
      /\ solver_rk3_tlm_with I_tlm u du v dx num_points dt num_steps
         = match I_tlm (f v (create_advection_opeartor dx num_points))
                   u du dt num_steps with
           | Ok (_, dy) => Ok dy
           | Raise e => Raise e
           end
      /\ solver_rk3_adm_with I_adm u Dv v dx num_points dt num_steps
         = match I_adm (f v (create_advection_opeartor dx num_points))
                   u Dv dt num_steps with
           | Ok (_, Du_initial) => Ok Du_initial
           | Raise e => Raise e
           end)
  /\ (forall w : vec,
        exists fw,
          evaluate (f v (create_advection_opeartor dx num_points)) w = Ok fw
          /\ length fw = length w).
Proof.
  split; [repeat split|]. split; [repeat split|]. split.
  - split; [reflexivity|].
    unfold solver_rk3_tlm_with, solver_rk3_adm_with, bind.
    split.
    + destruct (I_tlm _ _ _ _ _) as [[y dy]|e]; reflexivity.
    + destruct (I_adm _ _ _ _ _) as [[y dy]|e]; reflexivity.
  - intros w. exists (rhs v dx w). rewrite f_evaluate.
    split; [reflexivity | apply length_rhs].
Qed.

(** C8, counterexample: a state of length 3 with [num_points = 100] is a
    state length that disagrees with the grid parameters; the
    tangent-linear solver returns a perturbation of length 3 all the same,
    and for any integrator in place of the one of [rk3] the call is the
    call with [num_points = 3]. *)
Lemma dimension_checks_counterexample :
  length [1; 2; 3] <> 100%nat /\
  (exists dy,
     solver_rk3_tlm [1; 2; 3] [1; 0; 0] 1 1 100 1 1 = Ok dy /\
     length dy = 3%nat) /\
  (forall I_tlm,
     solver_rk3_tlm_with I_tlm [1; 2; 3] [1; 0; 0] 1 1 100 1 1
     = solver_rk3_tlm_with I_tlm [1; 2; 3] [1; 0; 0] 1 1 3 1 1).
Proof.
  split; [simpl; lia|]. split; [|reflexivity].
  rewrite solver_rk3_tlm_eq. cbn [length Nat.eqb].
  eexists. split; [reflexivity|]. apply length_tangent.
Qed.

(** ** Further properties of the spatial operator *)

Lemma map2_minus_plus p q p' q' :
  map2 Rminus (map2 Rplus p q) (map2 Rplus p' q')
  = map2 Rplus (map2 Rminus p p') (map2 Rminus q q').
Proof.
  revert q p' q'; induction p as [|a p IH];
    intros [|b q] [|a' p'] [|b' q']; simpl; auto.
  rewrite IH. f_equal. ring.
Qed.

Lemma sdiv_plus a b d :
  sdiv (map2 Rplus a b) d = map2 Rplus (sdiv a d) (sdiv b d).
Proof.
  revert b; induction a as [|x a IH]; intros [|y b]; simpl; auto.
  fold (sdiv (map2 Rplus a b) d) (sdiv a d) (sdiv b d). rewrite IH.
  f_equal. unfold Rdiv. ring.
Qed.

Lemma stencil_plus dx a b :
  length a = length b ->
  stencil dx (map2 Rplus a b)
  = map2 Rplus (stencil dx a) (stencil dx b).
Proof.
  intros H. unfold stencil.
  rewrite !roll_map2 by exact H.
  rewrite map2_minus_plus. apply sdiv_plus.
Qed.

Lemma stencil_smul dx c u : stencil dx (smul c u) = smul c (stencil dx u).
Proof.
  unfold stencil. rewrite !roll_smul, smul_minus. apply sdiv_smul.
Qed.

Lemma rhs_plus v dx a b :
  length a = length b ->
  rhs v dx (map2 Rplus a b) = map2 Rplus (rhs v dx a) (rhs v dx b).
Proof.
  intros H. unfold rhs. rewrite stencil_plus by exact H.
  symmetry. apply smul_plus.
Qed.

Lemma roll_repeat (c : R) n k : roll (repeat c n) k = repeat c n.
Proof.
  apply (nth_ext _ _ 0 0); [apply length_roll|].
  intros i Hi. rewrite length_roll in Hi.
  rewrite nth_roll by exact Hi.
  rewrite repeat_length in *.
  rewrite !nth_repeat_lt; auto. apply wrap_lt. lia.
Qed.

Lemma map2_minus_repeat (c : R) n :
  map2 Rminus (repeat c n) (repeat c n) = repeat 0 n.
Proof.
  induction n as [|n IH]; simpl; auto. rewrite IH. f_equal. ring.
Qed.

Lemma stencil_repeat dx c n : stencil dx (repeat c n) = repeat 0 n.
Proof.
  unfold stencil, sdiv.
  rewrite !roll_repeat, map2_minus_repeat, map_repeat.
  f_equal. unfold Rdiv. ring.
Qed.

Lemma smul_zeros c n : smul c (repeat 0 n) = repeat 0 n.
Proof. unfold smul. rewrite map_repeat. f_equal. ring. Qed.

Lemma dot_zeros_r a n : dot a (repeat 0 n) = 0.
Proof.
  revert n; induction a as [|x a IH]; intros [|n]; simpl; auto.
  rewrite IH. ring.
Qed.

Lemma vsum_dot_ones a : vsum a = dot a (repeat 1 (length a)).
Proof.
  induction a as [|x a IH]; simpl; auto. rewrite <- IH.
  unfold vsum. simpl. ring.
Qed.

Lemma vsum_smul c a : vsum (smul c a) = c * vsum a.
Proof.
  induction a as [|x a IH]; simpl; [ring|].
  fold (smul c a). rewrite IH. ring.
Qed.

Lemma vsum_plus a b :
  length a = length b -> vsum (map2 Rplus a b) = vsum a + vsum b.
Proof.
  revert b; induction a as [|x a IH]; intros [|y b] H;
    simpl in *; try discriminate; [ring|].
  rewrite IH by lia. ring.
Qed.

Lemma vsum_stencil dx u : vsum (stencil dx u) = 0.
Proof.
  rewrite vsum_dot_ones, length_stencil.
  rewrite stencil_adjoint by (rewrite repeat_length; reflexivity).
  rewrite stencil_T_opp, stencil_repeat, smul_zeros. apply dot_zeros_r.
Qed.

Lemma dot_stencil_self dx u : dot (stencil dx u) u = 0.
Proof.
  assert (H : dot (stencil dx u) u = - dot (stencil dx u) u).
  { rewrite stencil_adjoint at 1 by reflexivity.
    rewrite stencil_T_opp, dot_smul_r, (dot_comm u). ring. }
  lra.
Qed.

(** X1 (the operator is linear).  On two arrays of the same length the
    operator applied to their sum is the sum of the operator applied to
    each, and the operator applied to a scalar multiple is that multiple of
    the operator's value. *)
Theorem advection_op_linear (dx : R) (n : nat) (a b : vec) (c : R) :
  length a = length b ->
  exists Aa Ab,
    evaluate (create_advection_opeartor dx n) a = Ok Aa /\
    evaluate (create_advection_opeartor dx n) b = Ok Ab /\
    (s <- vadd a b ;; evaluate (create_advection_opeartor dx n) s)
    = vadd Aa Ab /\
    evaluate (create_advection_opeartor dx n) (smul c a) = Ok (smul c Aa).
Proof.
  intros H. exists (stencil dx a), (stencil dx b). simpl.
  rewrite !advection_op_ok. unfold vadd.
  rewrite !broadcast2_same by (rewrite ?length_stencil; exact H).
  cbn [bind]. rewrite advection_op_ok, stencil_plus by exact H.
  rewrite stencil_smul. repeat split.
Qed.

Lemma advection_op_linear_witness :
  exists Aa Ab,
    evaluate (create_advection_opeartor 1 3) [1; 2; 4] = Ok Aa /\
    evaluate (create_advection_opeartor 1 3) [0; 5; 1] = Ok Ab /\
    (s <- vadd [1; 2; 4] [0; 5; 1] ;;
     evaluate (create_advection_opeartor 1 3) s)
    = vadd Aa Ab /\
    evaluate (create_advection_opeartor 1 3) (smul 7 [1; 2; 4])
    = Ok (smul 7 Aa).
Proof.
  apply (advection_op_linear 1 3 [1; 2; 4] [0; 5; 1] 7). reflexivity.
Defined.

(** X2 (constant fields).  With a grid spacing that is not zero, the
    operator and the right-hand side both return, on a constant array of
    any length, the zero array of that length. *)
Theorem advection_op_constant (v dx c : R) (n N : nat) :
  dx <> 0 ->
  evaluate (create_advection_opeartor dx n) (repeat c N) = Ok (repeat 0 N)
  /\ evaluate (f v (create_advection_opeartor dx n)) (repeat c N)
     = Ok (repeat 0 N).
Proof.
  intros _. rewrite f_evaluate. simpl. rewrite advection_op_ok.
  unfold rhs. rewrite stencil_repeat, smul_zeros. split; reflexivity.
Qed.

Lemma advection_op_constant_witness :
  evaluate (create_advection_opeartor (1 / 100) 100) (repeat 5 100)
  = Ok (repeat 0 100)
  /\ evaluate (f (12 / 10) (create_advection_opeartor (1 / 100) 100))
       (repeat 5 100)
     = Ok (repeat 0 100).
Proof.
  apply (advection_op_constant (12 / 10) (1 / 100) 5 100 100). lra.
Defined.

(** X3 (grids of at most two points).  On an array of length 0, 1 or 2
    the two rolls coincide, and with a grid spacing that is not zero the
    operator returns the zero array of the same length. *)
Theorem advection_op_small_grid (dx : R) (n : nat) (u : vec) :
  dx <> 0 ->
  (length u <= 2)%nat ->
  roll u (-1) = roll u 1 /\
  evaluate (create_advection_opeartor dx n) u = Ok (repeat 0 (length u)).
Proof.
  intros _ H. simpl. rewrite advection_op_ok.
  destruct u as [|a [|b [|c u]]]; simpl in H; try lia;
    (split; [reflexivity|]); f_equal;
    unfold stencil, sdiv, roll; simpl;
    repeat (f_equal; try (unfold Rdiv; ring)).
Qed.

Lemma advection_op_small_grid_witness :
  roll [3; 8] (-1) = roll [3; 8] 1 /\
  evaluate (create_advection_opeartor 1 2) [3; 8] = Ok (repeat 0 2).
Proof.
  apply (advection_op_small_grid 1 2 [3; 8]); [lra | simpl; lia].
Defined.

(** X4 (conservation).  The entries of the operator's value, and of the
    right-hand side's value, sum to zero on every array. *)
Theorem advection_op_conservative (v dx : R) (n : nat) (u : vec) :
  exists Au fu,
    evaluate (create_advection_opeartor dx n) u = Ok Au /\
    evaluate (f v (create_advection_opeartor dx n)) u = Ok fu /\
    vsum Au = 0 /\ vsum fu = 0.
Proof.
  exists (stencil dx u), (rhs v dx u).
  rewrite f_evaluate. simpl. rewrite advection_op_ok.
  repeat split.
  - apply vsum_stencil.
  - unfold rhs. rewrite vsum_smul, vsum_stencil. ring.
Qed.

(** X5 (skewness).  The operator's value, and the right-hand side's value,
    are orthogonal to the argument: [<A(u), u> = 0] and [<f(u), u> = 0]. *)
Theorem advection_op_skew (v dx : R) (n : nat) (u : vec) :
  exists Au fu,
    evaluate (create_advection_opeartor dx n) u = Ok Au /\
    evaluate (f v (create_advection_opeartor dx n)) u = Ok fu /\
    dot Au u = 0 /\ dot fu u = 0.
Proof.
  exists (stencil dx u), (rhs v dx u).
  rewrite f_evaluate. simpl. rewrite advection_op_ok.
  repeat split.
  - apply dot_stencil_self.
  - unfold rhs. rewrite dot_smul_l, dot_stencil_self. ring.
Qed.

(** X6 (the operator commutes with circular shifts).  Rolling the argument
    by any shift rolls the operator's value, and the right-hand side's
    value, by the same shift. *)
Theorem advection_op_shift (v dx : R) (n : nat) (u : vec) (k : Z) :
  exists Au fu,
    evaluate (create_advection_opeartor dx n) u = Ok Au /\
    evaluate (f v (create_advection_opeartor dx n)) u = Ok fu /\
    evaluate (create_advection_opeartor dx n) (roll u k) = Ok (roll Au k) /\
    evaluate (f v (create_advection_opeartor dx n)) (roll u k)
    = Ok (roll fu k).
Proof.
  exists (stencil dx u), (rhs v dx u).
  rewrite !f_evaluate. simpl. rewrite !advection_op_ok.
  rewrite stencil_roll, rhs_roll. repeat split.
Qed.

(** ** The grid and the shifted initial condition *)

Lemma slice_in_range (u : vec) (i j : nat) :
  (i <= j)%nat -> (j <= length u)%nat ->
  slice u (Z.of_nat i) (Z.of_nat j) = firstn (j - i) (skipn i u).
Proof.
  intros Hij Hj. unfold slice.
  destruct (Z.ltb_spec (Z.of_nat i) 0); [lia|].
  destruct (Z.ltb_spec (Z.of_nat j) 0); [lia|].
  replace (Z.max 0 (Z.min (Z.of_nat (length u)) (Z.of_nat i)))
    with (Z.of_nat i) by lia.
  replace (Z.max 0 (Z.min (Z.of_nat (length u)) (Z.of_nat j)))
    with (Z.of_nat j) by lia.
  rewrite Nat2Z.id. f_equal. lia.
Qed.

Lemma last_to_front_roll (u : vec) : last_to_front u = roll u 1.
Proof.
  destruct u as [|a [|b u]]; [reflexivity | reflexivity |].
  unfold last_to_front, concatenate.
  set (w := a :: b :: u). set (n := length w).
  assert (Hn : (2 <= n)%nat) by (unfold n, w; simpl; lia).
  replace (Z.of_nat n - 1)%Z with (Z.of_nat (n - 1)) by lia.
  rewrite (slice_in_range w (n - 1) n) by (fold n; lia).
  replace (slice w 0 (Z.of_nat (n - 1)))
    with (firstn (n - 1 - 0) (skipn 0 w))
    by (symmetry; apply (slice_in_range w 0 (n - 1)); fold n; lia).
  unfold roll. fold n.
  replace (Z.to_nat (1 mod Z.of_nat (Nat.max n 1))) with 1%nat.
  - replace (n - (n - 1))%nat with 1%nat by lia.
    rewrite Nat.sub_0_r. simpl skipn at 2. f_equal.
    apply firstn_all2. rewrite length_skipn. fold n. lia.
  - replace (Nat.max n 1) with n by lia.
    rewrite Z.mod_small by lia. reflexivity.
Qed.

Lemma nth_linspace (start stop : R) (num i : nat) :
  (i < num)%nat ->
  nth i (linspace start stop num) 0
  = start + INR i * ((stop - start) / INR (num - 1)).
Proof.
  intros Hi. unfold linspace.
  set (g := fun j : nat => start + INR j * ((stop - start) / INR (num - 1))).
  rewrite (nth_indep _ 0 (g 0%nat))
    by (rewrite length_map, length_seq; exact Hi).
  rewrite map_nth, seq_nth by exact Hi. reflexivity.
Qed.

(** X7 (the shifted initial condition).  The expression of line 64, the
    last entry moved in front of the others, is [roll(u, 1)] for every
    array [u], the empty one included; so [u_initial_p] is [u_initial]
    rolled by one grid point. *)
Theorem last_to_front_is_roll :
  (forall u : vec, last_to_front u = roll u 1)
  /\ Main.u_initial_p = roll Main.u_initial 1.
Proof.
  split; [exact last_to_front_roll | apply last_to_front_roll].
Qed.

(** X8 (the grid).  Sampling [0 .. L - L/N] with [N >= 2] points, as line
    62 does, gives exactly [N] points, the point of index [i] being
    [i (L/N)]: the spacing of the grid is the [dx] handed to the solvers,
    and the left-out end point [L] is one spacing past the last point. *)
Theorem linspace_grid (L : R) (N i : nat) :
  (2 <= N)%nat -> (i < N)%nat ->
  length (linspace 0 (L - L / INR N) N) = N /\
  nth i (linspace 0 (L - L / INR N) N) 0 = INR i * (L / INR N) /\
  nth (N - 1) (linspace 0 (L - L / INR N) N) 0 + L / INR N = L.
Proof.
  intros HN Hi.
  assert (H1 : INR N <> 0) by (apply not_0_INR; lia).
  assert (H2 : INR N - 1 <> 0).
  { replace 1 with (INR 1) by reflexivity.
    rewrite <- minus_INR by lia. apply not_0_INR. lia. }
  split; [unfold linspace; rewrite length_map, length_seq; reflexivity|].
  rewrite !nth_linspace by lia.
  rewrite !minus_INR by lia. change (INR 1) with 1.
  split; field; auto.
Qed.

Lemma linspace_grid_witness :
  length Main.x = 100%nat /\
  nth 7 Main.x 0 = INR 7 * Main.dx /\
  nth 99 Main.x 0 + Main.dx = Main.domain_length.
Proof.
  apply (linspace_grid Main.domain_length 100 7); lia.
Defined.

(** ** Further properties of the recurrence *)

Lemma map2_plus_interchange a b c d :
  map2 Rplus (map2 Rplus a b) (map2 Rplus c d)
  = map2 Rplus (map2 Rplus a c) (map2 Rplus b d).
Proof.
  revert b c d; induction a as [|x a IH];
    intros [|y b] [|z c] [|w d]; simpl; auto.
  rewrite IH. f_equal. ring.
Qed.

Lemma map2_plus_assoc a b c :
  map2 Rplus a (map2 Rplus b c) = map2 Rplus (map2 Rplus a b) c.
Proof.
  revert b c; induction a as [|x a IH]; intros [|y b] [|z c]; simpl; auto.
  rewrite IH. f_equal. ring.
Qed.

Lemma smul_mult a b x : smul a (smul b x) = smul (a * b) x.
Proof.
  unfold smul. rewrite map_map. apply map_ext. intros; ring.
Qed.

Lemma map2_minus_self a : map2 Rminus a a = repeat 0 (length a).
Proof.
  induction a as [|x a IH]; simpl; auto. rewrite IH. f_equal. ring.
Qed.

Lemma map2_plus_minus_cancel a b :
  length a = length b -> map2 Rminus (map2 Rplus a b) a = b.
Proof.
  revert b; induction a as [|x a IH]; intros [|y b] H;
    simpl in *; try discriminate; auto.
  rewrite IH by lia. f_equal. ring.
Qed.

Lemma steps_ext n (s1 s2 : vec -> vec) u :
  (forall x, s1 x = s2 x) -> steps n s1 u = steps n s2 u.
Proof.
  intros H. revert u; induction n as [|n IH]; intros u; simpl; auto.
  rewrite H. apply IH.
Qed.

Section Linear.

Variables (g : vec -> vec) (dt : R).
Hypothesis g_length : forall u, length (g u) = length u.
Hypothesis g_smul : forall c u, g (smul c u) = smul c (g u).
Hypothesis g_plus :
  forall a b, length a = length b ->
    g (map2 Rplus a b) = map2 Rplus (g a) (g b).

Hint Rewrite g_length (length_euler g dt g_length) : len.

Lemma euler_plus a b :
  length a = length b ->
  euler g dt (map2 Rplus a b)
  = map2 Rplus (euler g dt a) (euler g dt b).
Proof.
  intros H. unfold euler.
  rewrite g_plus, <- smul_plus by exact H.
  apply map2_plus_interchange.
Qed.

Lemma ssp_rk3_step_plus a b :
  length a = length b ->
  ssp_rk3_step g dt (map2 Rplus a b)
  = map2 Rplus (ssp_rk3_step g dt a) (ssp_rk3_step g dt b).
Proof.
  intros H. unfold ssp_rk3_step.
  rewrite (euler_plus a b) by exact H.
  rewrite (euler_plus (euler g dt a) (euler g dt b)) by len.
  rewrite <- !(smul_plus (3/4)), <- !(smul_plus (1/4)).
  rewrite (map2_plus_interchange (smul (3/4) a)).
  rewrite euler_plus by len.
  rewrite <- !(smul_plus (1/3)), <- !(smul_plus (2/3)).
  apply map2_plus_interchange.
Qed.

Lemma steps_plus n a b :
  length a = length b ->
  steps n (ssp_rk3_step g dt) (map2 Rplus a b)
  = map2 Rplus (steps n (ssp_rk3_step g dt) a)
      (steps n (ssp_rk3_step g dt) b).
Proof.
  revert a b; induction n as [|n IH]; intros a b H; simpl; auto.
  rewrite ssp_rk3_step_plus by exact H.
  apply IH. rewrite !length_ssp_rk3_step by exact g_length. exact H.
Qed.

(** For a linear right-hand side the reverse recurrence is the forward
    recurrence: both are [1/3 + 1/2 E + 1/6 E^3] in the Euler map [E]. *)
Lemma ssp_rk3_step_T_linear y :
  ssp_rk3_step_T g dt y = ssp_rk3_step g dt y.
Proof.
  unfold ssp_rk3_step_T, ssp_rk3_step.
  rewrite !(euler_smul g dt g_smul).
  rewrite (euler_plus (smul (3/4) y)) by len.
  rewrite !(euler_smul g dt g_smul).
  rewrite <- (smul_plus (2/3)), <- map2_plus_assoc.
  rewrite !smul_mult. f_equal. f_equal; f_equal; field.
Qed.

Hypothesis g_vsum : forall u, vsum (g u) = 0.

Lemma vsum_euler u : vsum (euler g dt u) = vsum u.
Proof.
  unfold euler. rewrite vsum_plus by len.
  rewrite vsum_smul, g_vsum. ring.
Qed.

Lemma vsum_ssp_rk3_step u : vsum (ssp_rk3_step g dt u) = vsum u.
Proof.
  unfold ssp_rk3_step.
  rewrite vsum_plus by len. rewrite !vsum_smul, vsum_euler.
  rewrite vsum_plus by len. rewrite !vsum_smul, !vsum_euler. field.
Qed.

Lemma vsum_steps n u : vsum (steps n (ssp_rk3_step g dt) u) = vsum u.
Proof.
  revert u; induction n as [|n IH]; intros u; simpl; auto.
  rewrite IH. apply vsum_ssp_rk3_step.
Qed.

End Linear.

Lemma rhs_T_reverse v dx y : rhs_T v dx y = rhs (- v) dx y.
Proof.
  unfold rhs_T, rhs. rewrite stencil_T_opp, smul_mult.
  f_equal. ring.
Qed.

Lemma vsum_rhs v dx u : vsum (rhs v dx u) = 0.
Proof. unfold rhs. rewrite vsum_smul, vsum_stencil. ring. Qed.

Lemma forward_plus v dx dt n a b :
  length a = length b ->
  forward v dx dt n (map2 Rplus a b)
  = map2 Rplus (forward v dx dt n a) (forward v dx dt n b).
Proof.
  intros H. unfold forward. apply steps_plus; auto.
  - apply length_rhs.
  - intros; apply rhs_plus; assumption.
Qed.

Lemma forward_smul v dx dt n c u :
  forward v dx dt n (smul c u) = smul c (forward v dx dt n u).
Proof. unfold forward. apply steps_smul. intros; apply rhs_smul. Qed.

Lemma adjoint_reverse v dx dt n y :
  adjoint v dx dt n y = forward (- v) dx dt n y.
Proof.
  unfold adjoint, forward. apply steps_ext. intros x.
  rewrite <- (ssp_rk3_step_T_linear (rhs (- v) dx) dt).
  - unfold ssp_rk3_step_T, euler. rewrite !rhs_T_reverse. reflexivity.
  - apply length_rhs.
  - intros; apply rhs_smul.
  - intros; apply rhs_plus; assumption.
Qed.

(** ** Further properties of the solvers *)

(** X9 (conservation).  The forward solver returns a state whose entries
    have the same sum as the initial state's, for every state, parameter
    values and number of steps. *)
Theorem solver_rk3_conserves_sum (u : vec) (v dx : R) (num_points : nat)
  (dt : R) (num_steps : nat) :
  exists w,
    solver_rk3 u v dx num_points dt num_steps = Ok w /\ vsum w = vsum u.
Proof.
  exists (forward v dx dt num_steps u). rewrite solver_rk3_eq.
  split; [reflexivity|]. unfold forward. apply vsum_steps.
  - apply length_rhs.
  - apply vsum_rhs.
Qed.

(** X10 (superposition).  The forward solver is linear in the initial
    state: on two states of the same length the solution from their sum is
    the sum of the two solutions, and the solution from a scalar multiple
    of a state is that multiple of its solution. *)
Theorem solver_rk3_superposition (a b : vec) (c v dx : R)
  (num_points : nat) (dt : R) (num_steps : nat) :
  length a = length b ->
  exists wa wb,
    solver_rk3 a v dx num_points dt num_steps = Ok wa /\
    solver_rk3 b v dx num_points dt num_steps = Ok wb /\
    (s <- vadd a b ;; solver_rk3 s v dx num_points dt num_steps)
    = vadd wa wb /\
    solver_rk3 (smul c a) v dx num_points dt num_steps = Ok (smul c wa).
Proof.
  intros H.
  exists (forward v dx dt num_steps a), (forward v dx dt num_steps b).
  unfold vadd.
  rewrite !broadcast2_same by (rewrite ?length_forward; exact H).
  cbn [bind]. rewrite !solver_rk3_eq.
  rewrite forward_plus by exact H. rewrite forward_smul. repeat split.
Qed.

Lemma solver_rk3_superposition_witness :
  exists wa wb,
    solver_rk3 [1; 2; 4] 1 1 3 1 2 = Ok wa /\
    solver_rk3 [0; 5; 1] 1 1 3 1 2 = Ok wb /\
    (s <- vadd [1; 2; 4] [0; 5; 1] ;; solver_rk3 s 1 1 3 1 2)
    = vadd wa wb /\
    solver_rk3 (smul 7 [1; 2; 4]) 1 1 3 1 2 = Ok (smul 7 wa).
Proof.
  apply (solver_rk3_superposition [1; 2; 4] [0; 5; 1] 7 1 1 3 1 2).
  reflexivity.
Defined.

(** X11 (the tangent-linear solver on a linear problem).  For a
    perturbation of the state's length the tangent-linear solver returns
    what the forward solver returns from the perturbation as initial
    state; the values of the base state play no part. *)
Theorem solver_rk3_tlm_is_forward (u u' du : vec) (v dx : R)
  (num_points : nat) (dt : R) (num_steps : nat) :
  length du = length u ->
  length u' = length u ->
  solver_rk3_tlm u du v dx num_points dt num_steps
  = solver_rk3 du v dx num_points dt num_steps
  /\ solver_rk3_tlm u' du v dx num_points dt num_steps
     = solver_rk3_tlm u du v dx num_points dt num_steps.
Proof.
  intros H H'.
  rewrite !solver_rk3_tlm_eq, solver_rk3_eq, H', H, Nat.eqb_refl.
  split; reflexivity.
Qed.

Lemma solver_rk3_tlm_is_forward_witness :
  solver_rk3_tlm [1; 2; 3] [1; 0; 0] 1 1 3 1 2
  = solver_rk3 [1; 0; 0] 1 1 3 1 2
  /\ solver_rk3_tlm [9; 9; 9] [1; 0; 0] 1 1 3 1 2
     = solver_rk3_tlm [1; 2; 3] [1; 0; 0] 1 1 3 1 2.
Proof.
  apply (solver_rk3_tlm_is_forward [1; 2; 3] [9; 9; 9] [1; 0; 0] 1 1 3 1 2);
    reflexivity.
Defined.

(** X12 (the adjoint solver advects backwards).  For a cotangent of the
    state's length the adjoint solver with wave speed [v] returns what the
    forward solver with wave speed [-v] returns from the cotangent as
    initial state. *)
Theorem solver_rk3_adm_is_reverse (u Dv : vec) (v dx : R)
  (num_points : nat) (dt : R) (num_steps : nat) :
  length Dv = length u ->
  solver_rk3_adm u Dv v dx num_points dt num_steps
  = solver_rk3 Dv (- v) dx num_points dt num_steps.
Proof.
  intros H.
  rewrite solver_rk3_adm_eq, solver_rk3_eq, H, Nat.eqb_refl.
  f_equal. apply adjoint_reverse.
Qed.

Lemma solver_rk3_adm_is_reverse_witness :
  solver_rk3_adm [1; 2; 3] [0; 1; 0] 1 1 3 1 2
  = solver_rk3 [0; 1; 0] (- 1) 1 3 1 2.
Proof.
  apply (solver_rk3_adm_is_reverse [1; 2; 3] [0; 1; 0] 1 1 3 1 2).
  reflexivity.
Defined.

(** ** Further properties of the verification harness *)

Lemma norm_nonneg a : 0 <= norm a.
Proof. apply sqrt_pos. Qed.

Lemma norm_zeros n : norm (repeat 0 n) = 0.
Proof. unfold norm. rewrite dot_zeros_r. apply sqrt_0. Qed.

Lemma float_div_nonneg a b : 0 <= a -> 0 <= b -> float_nonneg (float_div a b).
Proof.
  intros Ha Hb. unfold float_div.
  destruct (Req_EM_T b 0) as [E | E].
  - destruct (Req_EM_T a 0); simpl; auto.
    destruct (Rlt_dec 0 a); simpl; auto. lra.
  - simpl. apply Rle_mult_inv_pos; lra.
Qed.

Lemma float_min_nonneg x y :
  float_nonneg x -> float_nonneg y -> float_nonneg (float_min x y).
Proof.
  destruct x, y; simpl; auto. intros. apply Rmin_glb; assumption.
Qed.

Lemma fold_float_min_nonneg l :
  forall x, float_nonneg x -> Forall float_nonneg l ->
    float_nonneg (fold_left float_min l x).
Proof.
  induction l as [|y l IH]; intros x Hx Hl; simpl; auto.
  inversion Hl; subst. apply IH; auto. apply float_min_nonneg; assumption.
Qed.

Lemma float_nonneg_not_below x tol :
  float_nonneg x -> tol <= 0 -> float_ltb x tol = false.
Proof.
  destruct x; simpl; intros H Ht; auto; try tauto.
  unfold Rltb. destruct (Rlt_dec r tol); [lra | reflexivity].
Qed.

Ltac invert_binds H :=
  repeat match type of H with
         | context [bind ?t _] =>
             destruct t eqn:?; cbn [bind] in H; try discriminate H
         end.

Lemma approx_loop_nonneg m u0 du v0 dv n :
  forall scale ae re ae' re',
    Main.approx_loop m u0 du v0 dv n scale ae re = Ok (ae', re') ->
    Forall float_nonneg re -> Forall float_nonneg re'.
Proof.
  induction n as [|n IH]; intros scale ae re ae' re' H Hre; simpl in H.
  - inversion H; subst. exact Hre.
  - invert_binds H. apply IH in H; [exact H|].
    apply Forall_app. split; [exact Hre|].
    constructor; [|constructor].
    apply float_div_nonneg; apply norm_nonneg.
Qed.

Section Measures.

Variable bit_generator : Z -> nat -> R.
Variables (m : vec -> result vec) (TLM ADM : vec -> vec -> result vec).
Variable tol : R.

Ltac open_check H :=
  unfold Main.testTLMLinearity, Main.testTLMApprox, Main.testADMApprox,
    Main.random in H;
  cbn [fst snd Main.seed Main.drawn Main.default_rng] in H;
  invert_binds H.

Lemma testTLMLinearity_measure flag e :
  Main.testTLMLinearity bit_generator TLM tol = Ok (flag, e) ->
  0 <= e /\ flag = Rltb e tol.
Proof.
  intros H. open_check H. inversion H; subst.
  split; [apply norm_nonneg | reflexivity].
Qed.

Lemma testTLMApprox_measure flag e :
  Main.testTLMApprox bit_generator m TLM tol = Ok (flag, e) ->
  float_nonneg e /\ flag = float_ltb e tol.
Proof.
  intros H. open_check H.
  match goal with
  | p : (list R * list float_value)%type |- _ => destruct p as [ae re]
  end.
  invert_binds H. inversion H; subst. split; [|reflexivity].
  match goal with
  | E : Main.approx_loop _ _ _ _ _ _ _ _ _ = Ok _ |- _ =>
      apply approx_loop_nonneg in E; [|constructor]
  end.
  match goal with
  | E : np_min ?l = Ok _, F : Forall _ ?l |- _ =>
      destruct l as [|x l']; simpl in E; inversion E; subst;
      inversion F; subst; apply fold_float_min_nonneg; assumption
  end.
Qed.

Lemma testADMApprox_measure flag e :
  Main.testADMApprox bit_generator TLM ADM tol = Ok (flag, e) ->
  0 <= e /\ flag = Rltb e tol.
Proof.
  intros H. open_check H. inversion H; subst.
  split; [apply Rabs_pos | reflexivity].
Qed.

End Measures.

(** X13 (the reported magnitude).  Whatever maps the checks are given, a
    check that returns a pair returns a magnitude that is not negative:
    a real number at least zero from the linearity and the adjoint check;
    such a number, the positive infinity or a NaN from the
    Taylor-remainder check.  The flag is [magnitude < tol], false for an
    infinity and for a NaN; so with a tolerance of zero or less no check
    reports success. *)
Theorem checks_measure_nonneg (bit_generator : Z -> nat -> R)
  (m : vec -> result vec) (TLM ADM : vec -> vec -> result vec) (tol : R) :
  (forall flag e,
     Main.testTLMLinearity bit_generator TLM tol = Ok (flag, e) ->
     0 <= e /\ flag = Rltb e tol /\ (tol <= 0 -> flag = false)) /\
  (forall flag e,
     Main.testTLMApprox bit_generator m TLM tol = Ok (flag, e) ->
     float_nonneg e /\ flag = float_ltb e tol /\
     (tol <= 0 -> flag = false)) /\
  (forall flag e,
     Main.testADMApprox bit_generator TLM ADM tol = Ok (flag, e) ->
     0 <= e /\ flag = Rltb e tol /\ (tol <= 0 -> flag = false)).
Proof.
  assert (F : forall e, 0 <= e -> tol <= 0 -> Rltb e tol = false).
  { intros e He Ht. unfold Rltb.
    destruct (Rlt_dec e tol); [lra | reflexivity]. }
  repeat split.
  - apply (testTLMLinearity_measure bit_generator TLM tol flag e H).
  - apply (testTLMLinearity_measure bit_generator TLM tol flag e H).
  - destruct (testTLMLinearity_measure bit_generator TLM tol flag e H)
      as [He ->]. auto.
  - apply (testTLMApprox_measure bit_generator m TLM tol flag e H).
  - apply (testTLMApprox_measure bit_generator m TLM tol flag e H).
  - destruct (testTLMApprox_measure bit_generator m TLM tol flag e H)
      as [He ->]. intros Ht. apply float_nonneg_not_below; assumption.
  - apply (testADMApprox_measure bit_generator TLM ADM tol flag e H).
  - apply (testADMApprox_measure bit_generator TLM ADM tol flag e H).
  - destruct (testADMApprox_measure bit_generator TLM ADM tol flag e H)
      as [He ->]. auto.
Qed.

(** A forward map that is constant, with the zero linearization: every
    relative error is [0 / 0]. *)
Lemma constant_map_minimum bg :
  taylor_minimum (fun x => repeat 0 (length x)) (drawn_u0 bg) (drawn_du bg)
    (repeat 0 (length (drawn_u0 bg))) (repeat 0 100)
  = NaN.
Proof.
  assert (H : forall s,
             taylor_relative_error (fun x => repeat 0 (length x))
               (drawn_u0 bg) (drawn_du bg)
               (repeat 0 (length (drawn_u0 bg))) (repeat 0 100) s = NaN).
  { intros s. unfold taylor_relative_error, taylor_absolute_error.
    rewrite length_map2, length_smul, length_drawn_u0, length_drawn_du.
    cbn [Nat.min]. rewrite smul_zeros.
    rewrite (map2_minus_self (repeat 0 100)), repeat_length.
    rewrite (map2_minus_self (repeat 0 100)), repeat_length, norm_zeros.
    unfold float_div. destruct (Req_EM_T 0 0); [reflexivity | congruence]. }
  unfold taylor_minimum. rewrite H. apply fold_float_min_NaN.
Qed.

Lemma checks_measure_nonneg_witness :
  Main.testTLMApprox unit_generator (fun x => Ok (repeat 0 (length x)))
    (fun _ _ => Ok (repeat 0 100)) 0
  = Ok (false, NaN)
  /\ float_nonneg NaN.
Proof.
  pose proof (testTLMApprox_eq unit_generator
                (fun x => Ok (repeat 0 (length x)))
                (fun x => repeat 0 (length x))
                (fun _ _ => Ok (repeat 0 100)) 0
                (fun x => eq_refl) (fun x => repeat_length 0 (length x))
                (repeat 0 100) eq_refl (repeat_length 0 100)) as E.
  cbv beta in E. rewrite constant_map_minimum in E.
  destruct (checks_measure_nonneg unit_generator
              (fun x => Ok (repeat 0 (length x)))
              (fun _ _ => Ok (repeat 0 100)) (fun _ Dv => Ok Dv) 0)
    as (_ & H2 & _).
  destruct (H2 _ _ E) as (Hn & _ & _).
  split; [exact E | exact Hn].
Defined.



(** X15 (a linear map passes the linearity check).  When the
    tangent-linear map returns, on twice the drawn perturbation, twice
    what it returns on the perturbation, the linearity check measures
    exactly zero and reports [0 < tol]. *)
Theorem testTLMLinearity_exact (bit_generator : Z -> nat -> R)
  (TLM : vec -> vec -> result vec) (tol : R) (dv : vec) :
  TLM (drawn_u0 bit_generator) (drawn_du bit_generator) = Ok dv ->
  TLM (drawn_u0 bit_generator) (smul 2 (drawn_du bit_generator))
  = Ok (smul 2 dv) ->
  Main.testTLMLinearity bit_generator TLM tol = Ok (Rltb 0 tol, 0).
Proof.
  intros H1 H2.
  unfold Main.testTLMLinearity, Main.random.
  cbn [fst snd Main.seed Main.drawn Main.default_rng].
  change (map (bit_generator 12345%Z) (seq 0 100))
    with (drawn_u0 bit_generator).
  change (map (bit_generator 12345%Z) (seq (0 + 100) 100))
    with (drawn_du bit_generator).
  rewrite H1. cbn [bind]. rewrite H2. cbn [bind].
  unfold vsub. rewrite broadcast2_same by reflexivity. cbn [bind].
  rewrite map2_minus_self, norm_zeros. reflexivity.
Qed.

Lemma tangent_smul v dx dt n c du :
  tangent v dx dt n (smul c du) = smul c (tangent v dx dt n du).
Proof. unfold tangent. apply steps_smul. intros; apply rhs_smul. Qed.

Lemma TLM_drawn bg :
  Main.TLM (drawn_u0 bg) (drawn_du bg)
  = Ok (tangent Main.v Main.dx Main.dt Main.num_steps (drawn_du bg)).
Proof.
  unfold Main.TLM.
  rewrite solver_rk3_tlm_eq, length_drawn_du, length_drawn_u0, Nat.eqb_refl.
  reflexivity.
Qed.

Lemma TLM_drawn_twice bg :
  Main.TLM (drawn_u0 bg) (smul 2 (drawn_du bg))
  = Ok (smul 2 (tangent Main.v Main.dx Main.dt Main.num_steps
                  (drawn_du bg))).
Proof.
  unfold Main.TLM.
  rewrite solver_rk3_tlm_eq, length_smul, length_drawn_du, length_drawn_u0,
    Nat.eqb_refl, tangent_smul.
  reflexivity.
Qed.

Lemma testTLMLinearity_exact_witness :
  Main.testTLMLinearity (fun _ i => INR i) Main.TLM (/ 10 ^ 13)
  = Ok (Rltb 0 (/ 10 ^ 13), 0).
Proof.
  apply (testTLMLinearity_exact (fun _ i => INR i) Main.TLM (/ 10 ^ 13)
           (tangent Main.v Main.dx Main.dt Main.num_steps
              (drawn_du (fun _ i => INR i)))).
  - apply TLM_drawn.
  - apply TLM_drawn_twice.
Defined.

(** X16 (an adjoint pair passes the adjoint check).  When the
    tangent-linear map returns [dv], the adjoint map returns [Du] of the
    state's length on the drawn cotangent, and the two dot products
    agree, the adjoint check measures exactly zero and reports
    [0 < tol]. *)
Theorem testADMApprox_exact (bit_generator : Z -> nat -> R)
  (TLM ADM : vec -> vec -> result vec) (tol : R) (dv Du : vec) :
  TLM (drawn_u0 bit_generator) (drawn_du bit_generator) = Ok dv ->
  ADM (drawn_u0 bit_generator) (drawn_Dv bit_generator (length dv))
  = Ok Du ->
  length Du = 100%nat ->
  dot dv (drawn_Dv bit_generator (length dv))
  = dot (drawn_du bit_generator) Du ->
  Main.testADMApprox bit_generator TLM ADM tol = Ok (Rltb 0 tol, 0).
Proof.
  intros H1 H2 HDu Hdot.
  unfold Main.testADMApprox, Main.random.
  cbn [fst snd Main.seed Main.drawn Main.default_rng].
  change (map (bit_generator 12345%Z) (seq 0 100))
    with (drawn_u0 bit_generator).
  change (map (bit_generator 12345%Z) (seq (0 + 100) 100))
    with (drawn_du bit_generator).
  rewrite H1. cbn [bind].
  change (map (bit_generator 12345%Z) (seq (0 + 100 + 100) (length dv)))
    with (drawn_Dv bit_generator (length dv)).
  rewrite H2. cbn [bind]. unfold np_dot.
  rewrite length_drawn_Dv, Nat.eqb_refl. cbn [bind].
  rewrite length_drawn_du, HDu, Nat.eqb_refl. cbn [bind].
  rewrite Hdot.
  replace (dot (drawn_du bit_generator) Du
           - dot (drawn_du bit_generator) Du) with 0 by ring.
  rewrite Rabs_R0. reflexivity.
Qed.

Lemma ADM_drawn bg Dv :
  length Dv = 100%nat ->
  Main.ADM (drawn_u0 bg) Dv
  = Ok (adjoint Main.v Main.dx Main.dt Main.num_steps Dv).
Proof.
  intros H. unfold Main.ADM.
  rewrite solver_rk3_adm_eq, H, length_drawn_u0, Nat.eqb_refl.
  reflexivity.
Qed.

Lemma tangent_adjoint v dx dt n x y :
  length x = length y ->
  dot (tangent v dx dt n x) y = dot x (adjoint v dx dt n y).
Proof.
  intros H. unfold tangent, adjoint. apply steps_adjoint.
  - apply length_rhs.
  - apply length_rhs_T.
  - intros; apply rhs_adjoint; assumption.
  - exact H.
Qed.

Lemma testADMApprox_exact_witness :
  Main.testADMApprox (fun _ i => INR i) Main.TLM Main.ADM (/ 10 ^ 13)
  = Ok (Rltb 0 (/ 10 ^ 13), 0).
Proof.
  apply (testADMApprox_exact (fun _ i => INR i) Main.TLM Main.ADM
           (/ 10 ^ 13)
           (tangent Main.v Main.dx Main.dt Main.num_steps
              (drawn_du (fun _ i => INR i)))
           (adjoint Main.v Main.dx Main.dt Main.num_steps
              (drawn_Dv (fun _ i => INR i)
                 (length (tangent Main.v Main.dx Main.dt Main.num_steps
                            (drawn_du (fun _ i => INR i))))))).
  - apply TLM_drawn.
  - apply ADM_drawn.
    rewrite length_drawn_Dv, length_tangent. apply length_drawn_du.
  - rewrite length_adjoint, length_drawn_Dv, length_tangent.
    apply length_drawn_du.
  - apply tangent_adjoint.
    rewrite length_drawn_Dv, length_tangent. reflexivity.
Defined.

Lemma norm_smul s a : norm (smul s a) = Rabs s * norm a.
Proof.
  unfold norm. rewrite dot_smul_l, dot_smul_r.
  replace (s * (s * dot a a)) with (Rsqr s * dot a a)
    by (unfold Rsqr; ring).
  rewrite sqrt_mult by (auto using Rle_0_sqr, dot_self_nonneg).
  rewrite sqrt_Rsqr_abs. reflexivity.
Qed.

Lemma dot_self_zero a : dot a a = 0 -> a = repeat 0 (length a).
Proof.
  induction a as [|x a IH]; simpl; intros H; [reflexivity|].
  pose proof (dot_self_nonneg a) as Ha.
  assert (Hx : x * x = 0) by nra.
  assert (Hd : dot a a = 0) by nra.
  apply Rmult_integral in Hx.
  rewrite <- IH by exact Hd. f_equal. tauto.
Qed.

Lemma vsum_zeros n : vsum (repeat 0 n) = 0.
Proof.
  induction n as [|n IH]; simpl; auto.
  change (0 + vsum (repeat 0 n) = 0). rewrite IH. ring.
Qed.

Lemma norm_zero_vsum a : norm a = 0 -> vsum a = 0.
Proof.
  intros H. unfold norm in H.
  apply sqrt_eq_0 in H; [|apply dot_self_nonneg].
  rewrite (dot_self_zero a H). apply vsum_zeros.
Qed.

Lemma vsum_map_one (l : list nat) :
  vsum (map (fun _ => 1) l) = INR (length l).
Proof.
  induction l as [|i l IH]; [reflexivity|].
  cbn [map length]. rewrite S_INR, <- IH. unfold vsum. simpl. ring.
Qed.

Lemma vsum_tangent v dx dt n du :
  vsum (tangent v dx dt n du) = vsum du.
Proof.
  unfold tangent. apply vsum_steps.
  - apply length_rhs.
  - apply vsum_rhs.
Qed.

Lemma vsum_unit_draw : vsum (drawn_du unit_generator) = INR 100.
Proof.
  change (drawn_du unit_generator)
    with (map (fun _ : nat => 1) (seq 100 100)).
  rewrite vsum_map_one, length_seq. reflexivity.
Qed.

(** On all-one draws the program's tangent-linear solution is not the
    zero vector: it has the sum of the perturbation, which is 100. *)
Lemma unit_tangent_norm :
  norm (tangent Main.v Main.dx Main.dt Main.num_steps
          (drawn_du unit_generator)) <> 0.
Proof.
  intros H. apply norm_zero_vsum in H.
  rewrite vsum_tangent, vsum_unit_draw in H.
  revert H. apply not_0_INR. discriminate.
Qed.

(** X17 (a linear forward map in the Taylor-remainder check).  Let the
    forward map return everywhere a vector of its argument's length, and
    let its increment from the drawn state along [s du] be [s dv] for
    every scale [s].  If [dv] is not the zero vector every relative error
    is exactly zero: the check returns [(0 < tol, 0)].  If [dv] is the
    zero vector every relative error is [0 / 0]: the check returns
    [(False, nan)]. *)
Theorem testTLMApprox_exact (bit_generator : Z -> nat -> R)
  (m : vec -> result vec) (fwd : vec -> vec)
  (TLM : vec -> vec -> result vec) (tol : R) (dv : vec) :
  (forall x, m x = Ok (fwd x)) ->
  (forall x, length (fwd x) = length x) ->
  TLM (drawn_u0 bit_generator) (drawn_du bit_generator) = Ok dv ->
  length dv = 100%nat ->
  (forall s,
     map2 Rminus
       (fwd (map2 Rplus (drawn_u0 bit_generator)
               (smul s (drawn_du bit_generator))))
       (fwd (drawn_u0 bit_generator))
     = smul s dv) ->
  (norm dv <> 0 ->
   Main.testTLMApprox bit_generator m TLM tol
   = Ok (Rltb 0 tol, Finite 0)) /\
  (norm dv = 0 ->
   Main.testTLMApprox bit_generator m TLM tol = Ok (false, NaN)).
Proof.
  intros Hm Hl HT Hdv Hlin.
  rewrite (testTLMApprox_eq bit_generator m fwd TLM tol Hm Hl dv HT Hdv).
  unfold taylor_minimum.
  set (rel := fun i : nat =>
         taylor_relative_error fwd (drawn_u0 bit_generator)
           (drawn_du bit_generator) (fwd (drawn_u0 bit_generator)) dv
           (scale_at i)).
  change (taylor_relative_error fwd (drawn_u0 bit_generator)
            (drawn_du bit_generator) (fwd (drawn_u0 bit_generator)) dv
            (scale_at 0)) with (rel 0%nat).
  assert (Hrel : forall i,
             rel i = float_div 0 (Rabs (scale_at i) * norm dv)).
  { intros i. unfold rel, taylor_relative_error, taylor_absolute_error.
    rewrite Hlin, map2_minus_self, norm_zeros, norm_smul. reflexivity. }
  split; intros Hn.
  - assert (H0 : forall i, rel i = Finite 0).
    { intros i. rewrite Hrel. unfold float_div.
      pose proof (scale_at_pos i) as Hs.
      destruct (Req_EM_T (Rabs (scale_at i) * norm dv) 0) as [E | _].
      - apply Rmult_integral in E. destruct E as [E | E]; [|contradiction].
        rewrite Rabs_pos_eq in E by lra. lra.
      - f_equal. unfold Rdiv. ring. }
    destruct (fold_float_min_spec (map rel (seq 1 14)) (rel 0%nat))
      as (_ & _ & _ & Hin).
    + rewrite H0. discriminate.
    + intros y Hy. apply in_map_iff in Hy. destruct Hy as (i & <- & _).
      rewrite H0. discriminate.
    + assert (E : fold_left float_min (map rel (seq 1 14)) (rel 0%nat)
                  = Finite 0).
      { destruct Hin as [H | H].
        - rewrite <- H. apply H0.
        - apply in_map_iff in H. destruct H as (i & Hi & _).
          rewrite <- Hi. apply H0. }
      rewrite E. reflexivity.
  - assert (E : rel 0%nat = NaN).
    { rewrite Hrel, Hn, Rmult_0_r. unfold float_div.
      destruct (Req_EM_T 0 0); [reflexivity | congruence]. }
    rewrite E, fold_float_min_NaN. reflexivity.
Qed.

Lemma forward_increment v dx dt n u0 du s :
  length du = length u0 ->
  map2 Rminus (forward v dx dt n (map2 Rplus u0 (smul s du)))
    (forward v dx dt n u0)
  = smul s (tangent v dx dt n du).
Proof.
  intros H.
  rewrite forward_plus by (rewrite length_smul; congruence).
  rewrite map2_plus_minus_cancel
    by (rewrite !length_forward, length_smul; congruence).
  apply forward_smul.
Qed.

Lemma testTLMApprox_exact_witness :
  Main.testTLMApprox unit_generator Main.m Main.TLM (/ 10 ^ 13)
  = Ok (Rltb 0 (/ 10 ^ 13), Finite 0).
Proof.
  apply (testTLMApprox_exact unit_generator Main.m
           (forward Main.v Main.dx Main.dt Main.num_steps) Main.TLM
           (/ 10 ^ 13)
           (tangent Main.v Main.dx Main.dt Main.num_steps
              (drawn_du unit_generator))).
  - exact m_total.
  - intros x. apply length_forward.
  - apply TLM_drawn.
  - rewrite length_tangent. apply length_drawn_du.
  - intros s. apply forward_increment.
    rewrite length_drawn_du, length_drawn_u0. reflexivity.
  - exact unit_tangent_norm.
Defined.
